(** * svg-designer: the vector-path geometry engine

    A shallow embedding of the spline fitter and path serializer
    ([lib/spline.js]), of the path interpreter [executeSVGStateMachine]
    and of [combineBoundingBoxes] ([lib/SVGBuilder.js]), followed by the
    properties of these functions.

    JavaScript values are modelled as follows.
    - A thrown exception is the [Throw] case of [result]; [Error msg] is
      [new Error(msg)], [TypeError] a property read on [null]/[undefined].
    - The spline fitter, the serializer and the interpreter never inspect a
      number: they only copy numbers and combine them with [+ - * /].  They
      are written over an arbitrary carrier [V] with the class [JsArith], so
      their theorems hold for every interpretation of the arithmetic,
      IEEE-754 doubles included.
    - [combineBoundingBoxes] compares numbers.  It is stated over [jsnum]:
      IEEE 754 binary64 numbers (the primitive type [float], with
      rounding, signed zeros, the infinities and [NaN]) and [undefined]. *)

From Stdlib Require Import ZArith List String Ascii Bool Lia.
From Stdlib Require Import Decimal DecimalString DecimalNat DecimalN DecimalZ.
From Stdlib Require Import Permutation Floats.
Import ListNotations.

(* ================================================================== *)
(** * Part I: definitions *)
(* ================================================================== *)

(** ** Exceptions *)

Inductive Exception : Type :=
| Error (message : string)
| TypeError.

Inductive result (A : Type) : Type :=
| Ok (a : A)
| Throw (e : Exception).

Arguments Ok {A} a.
Arguments Throw {A} e.

Definition bind {A B : Type} (m : result A) (k : A -> result B) : result B :=
  match m with
  | Ok a => k a
  | Throw e => Throw e
  end.

Notation "x <- m ;; k" := (bind m (fun x => k))
  (at level 61, m at next level, right associativity).

(** [for (...) { ...; out.push(body(i)) }] over the elements of [l]: the
    first exception aborts the loop. *)
Fixpoint mapM {A B : Type} (f : A -> result B) (l : list A) : result (list B) :=
  match l with
  | [] => Ok []
  | x :: l' => y <- f x ;; ys <- mapM f l' ;; Ok (y :: ys)
  end.

(** The values of [i] taken by [for (let i = lo; i < hi; i++)]. *)
Definition range (lo hi : Z) : list Z :=
  map (fun k => (lo + Z.of_nat k)%Z) (seq 0 (Z.to_nat (hi - lo))).

(** [a[i]] followed by a property read: [a[i]] is [undefined] out of range,
    and reading a property of [undefined] throws a [TypeError]. *)
Definition at_index {A : Type} (a : list A) (i : Z) : result A :=
  if (i <? 0)%Z then Throw TypeError
  else match nth_error a (Z.to_nat i) with
       | Some x => Ok x
       | None => Throw TypeError
       end.

(** [Array.prototype.join]. *)
Fixpoint join (sep : string) (l : list string) : string :=
  match l with
  | [] => EmptyString
  | [s] => s
  | s :: l' => (s ++ sep ++ join sep l')%string
  end.

(** ** Numbers *)

(** The arithmetic a JavaScript value supports; [js_lit] is an integer
    literal of the source, [js_undefined] the value of a missing array
    element. *)
Class JsArith (V : Type) : Type := {
  js_add : V -> V -> V;
  js_sub : V -> V -> V;
  js_mul : V -> V -> V;
  js_div : V -> V -> V;
  js_lit : Z -> V;
  js_undefined : V
}.

(** A JavaScript number is an IEEE 754 binary64 value: the primitive
    type [float], whose operations round to nearest, ties to even, as the
    operators [+ - * /] of JavaScript do.  A value of the programs below
    is a number or [undefined]. *)
Inductive jsnum : Type :=
| Undefined
| Num (f : float).

Definition NaN : jsnum := Num nan.
Definition PosInf : jsnum := Num infinity.
Definition NegInf : jsnum := Num neg_infinity.

(** [ToNumber]: [undefined] becomes [NaN]. *)
Definition toNumber (v : jsnum) : float :=
  match v with
  | Undefined => nan
  | Num f => f
  end.

Definition num_add (a b : jsnum) : jsnum := Num (toNumber a + toNumber b).
Definition num_sub (a b : jsnum) : jsnum := Num (toNumber a - toNumber b).
Definition num_mul (a b : jsnum) : jsnum := Num (toNumber a * toNumber b).
Definition num_div (a b : jsnum) : jsnum := Num (toNumber a / toNumber b).

(** [a <= b]: false as soon as an operand converts to [NaN]. *)
Definition num_leb (a b : jsnum) : bool := (toNumber a <=? toNumber b)%float.

Definition is_neg_zero (f : float) : bool :=
  match classify f with
  | NZero => true
  | _ => false
  end.

Definition is_pos_zero (f : float) : bool :=
  match classify f with
  | PZero => true
  | _ => false
  end.

(** [Math.min(a, b)] on numbers, as ECMAScript defines it: [NaN] as soon
    as an argument is [NaN]; the running value is [a], replaced by [b]
    when [b] is [-0] and it is [+0], or when [b] is below it. *)
Definition float_min (a b : float) : float :=
  if PrimFloat.is_nan a || PrimFloat.is_nan b then nan
  else if (b <? a)%float then b
  else if is_neg_zero b && is_pos_zero a then b
  else a.

(** [Math.max(a, b)] on numbers: [b] replaces [a] when [b] is [+0] and
    [a] is [-0], or when [b] is above [a]. *)
Definition float_max (a b : float) : float :=
  if PrimFloat.is_nan a || PrimFloat.is_nan b then nan
  else if (a <? b)%float then b
  else if is_pos_zero b && is_neg_zero a then b
  else a.

(** [Math.min] and [Math.max] convert their arguments first. *)
Definition Math_min (a b : jsnum) : jsnum :=
  Num (float_min (toNumber a) (toNumber b)).

Definition Math_max (a b : jsnum) : jsnum :=
  Num (float_max (toNumber a) (toNumber b)).

(** An integer literal of the source: the nearest binary64 value. *)
Definition num_lit (z : Z) : jsnum :=
  Num (SF2Prim (binary_normalize prec emax z 0 false)).

#[export] Instance jsnum_arith : JsArith jsnum := {
  js_add := num_add;
  js_sub := num_sub;
  js_mul := num_mul;
  js_div := num_div;
  js_lit := num_lit;
  js_undefined := Undefined
}.

(** *** The order of [Math.min] and [Math.max]

    The binary64 values other than [NaN], seen through [Prim2SF], are
    ordered by a key compared lexicographically: first the class
    ([-Infinity], negative, [-0], [+0], positive, [Infinity]), then the
    exponent and the mantissa.  [Math.min] and [Math.max] pick the
    argument with the smaller and the larger key. *)
Definition key (x : spec_float) : Z * Z * Z :=
  match x with
  | S754_nan => (4, 0, 0)
  | S754_infinity true => (-2, 0, 0)
  | S754_finite true m e => (-1, - e, Zneg m)
  | S754_zero true => (0, 0, 0)
  | S754_zero false => (1, 0, 0)
  | S754_finite false m e => (2, e, Zpos m)
  | S754_infinity false => (3, 0, 0)
  end%Z.

Definition key_le (k k' : Z * Z * Z) : Prop :=
  let '(a, b, c) := k in
  let '(a', b', c') := k' in
  (a < a' \/ (a = a' /\ (b < b' \/ (b = b' /\ c <= c'))))%Z.

Definition key_lt (k k' : Z * Z * Z) : Prop :=
  let '(a, b, c) := k in
  let '(a', b', c') := k' in
  (a < a' \/ (a = a' /\ (b < b' \/ (b = b' /\ c < c'))))%Z.

Definition SFis_nan (x : spec_float) : bool :=
  match x with
  | S754_nan => true
  | _ => false
  end.

Definition SFis_neg_zero (x : spec_float) : bool :=
  match x with
  | S754_zero true => true
  | _ => false
  end.

Definition SFis_pos_zero (x : spec_float) : bool :=
  match x with
  | S754_zero false => true
  | _ => false
  end.

(** The key in which both zeros are the same value: the order of [<=]. *)
Definition okey (x : spec_float) : Z * Z * Z :=
  match x with
  | S754_zero _ => (0, 0, 0)%Z
  | _ => key x
  end.

Definition SFis_finite (x : spec_float) : bool :=
  match x with
  | S754_zero _ | S754_finite _ _ _ => true
  | _ => false
  end.

(** [float_min] and [float_max] on the specification side. *)
Definition SFmin (x y : spec_float) : spec_float :=
  if SFis_nan x || SFis_nan y then S754_nan
  else if SFltb y x then y
  else if SFis_neg_zero y && SFis_pos_zero x then y
  else x.

Definition SFmax (x y : spec_float) : spec_float :=
  if SFis_nan x || SFis_nan y then S754_nan
  else if SFltb x y then y
  else if SFis_pos_zero y && SFis_neg_zero x then y
  else x.

(** ** lib/spline.js: spline fitting *)

Module Spline.
Section WithArith.
Context {V : Type} {arith : JsArith V}.

(** [@typedef {[number,number]} Point], [Path], [SimplePathList]. *)
Definition Point : Type := V * V.
Definition Path : Type := list Point.
Definition SimplePathList : Type := list Path.

Definition len (points : Path) : Z := Z.of_nat (List.length points).

(** The body of the loop of [performCatmullRom]. *)
Definition catmullRomSegment (points : Path) (tension : V) (i : Z)
  : result Path :=
  p0 <- at_index points (Z.max (i - 1) 0) ;;
  p1 <- at_index points i ;;
  p2 <- at_index points (i + 1) ;;
  p3 <- at_index points (Z.min (i + 2) (len points - 1)) ;;
  let t1x := js_mul (js_div (js_sub (fst p2) (fst p0)) (js_lit 2)) tension in
  let t1y := js_mul (js_div (js_sub (snd p2) (snd p0)) (js_lit 2)) tension in
  let t2x := js_mul (js_div (js_sub (fst p3) (fst p1)) (js_lit 2)) tension in
  let t2y := js_mul (js_div (js_sub (snd p3) (snd p1)) (js_lit 2)) tension in
  let cp1 := (js_add (fst p1) (js_div t1x (js_lit 3)),
              js_add (snd p1) (js_div t1y (js_lit 3))) in
  let cp2 := (js_sub (fst p2) (js_div t2x (js_lit 3)),
              js_sub (snd p2) (js_div t2y (js_lit 3))) in
  Ok [p1; cp1; cp2; p2].

Definition performCatmullRom (points : Path) (tension : V)
  : result SimplePathList :=
  if (len points =? 0)%Z then Throw (Error "At least 1 point required")
  else if (len points <? 4)%Z then Ok [points]
  else mapM (catmullRomSegment points tension) (range 0 (len points - 1)).

(** The body of the loop of [performCanonicalSpline]. *)
Definition canonicalSplineSegment (points : Path) (tension : V) (i : Z)
  : result Path :=
  p0 <- at_index points (i - 1) ;;
  p1 <- at_index points i ;;
  p2 <- at_index points (i + 1) ;;
  p3 <- at_index points (i + 2) ;;
  let cp1x := js_add (fst p1)
                (js_mul (js_div (js_sub (fst p2) (fst p0)) (js_lit 6)) tension) in
  let cp1y := js_add (snd p1)
                (js_mul (js_div (js_sub (snd p2) (snd p0)) (js_lit 6)) tension) in
  let cp2x := js_sub (fst p2)
                (js_mul (js_div (js_sub (fst p3) (fst p1)) (js_lit 6)) tension) in
  let cp2y := js_sub (snd p2)
                (js_mul (js_div (js_sub (snd p3) (snd p1)) (js_lit 6)) tension) in
  Ok [p1; (cp1x, cp1y); (cp2x, cp2y); p2].

Definition performCanonicalSpline (points : Path) (tension : V)
  : result SimplePathList :=
  if (len points =? 0)%Z then Throw (Error "At least 1 point required")
  else if (len points <? 5)%Z then Ok [points]
  else mapM (canonicalSplineSegment points tension) (range 1 (len points - 2)).

End WithArith.
End Spline.

(** ** lib/spline.js: serialization *)

(** [`${n}`] for an array length. *)
Definition natToString (n : nat) : string :=
  NilEmpty.string_of_uint (Nat.to_uint n).

(** The form of [lib/spline.js] that [Artist.curve(path, tension)] calls:
    [buildSimplePathDString(points, individual = true)] and
    [buildSplineDString(points, tension = 1.0)]. *)
Module Serializer.
Import Spline.
Section WithArith.
Context {V : Type} {arith : JsArith V}.

(** [`${v}`]: the conversion of a number to a string. *)
Variable toString : V -> string.

Definition coords (p : Point) : string :=
  (toString (fst p) ++ " " ++ toString (snd p))%string.

(** With [individual] the prefix is written between double quotes in the
    source: it is not a template, and the text is emitted as it stands. *)
Definition buildSimplePathDString (points : @Path V) (individual : bool)
  : result string :=
  let n := List.length points in
  if (4 <? n)%nat then
    Throw (Error (natToString n ++
      " points do not form a simple curve (line segment, quadratic bezier, cubic bezier). Consider using Catmull-Rom or canonical spline decomposition"))
  else if negb (existsb (Nat.eqb n) [2; 3; 4]%nat) then
    Throw (Error
      "# Points must be 2, 3, or 4. Note that <svg> does not support drawing a single point. Use a <circle> instead.")
  else
    let s := if individual then "M ${points[0][0]} ${points[0][1]} "%string
             else EmptyString in
    match n with
    | 2%nat =>
        p1 <- at_index points 1 ;;
        Ok (s ++ "L " ++ coords p1)%string
    | 3%nat =>
        p1 <- at_index points 1 ;;
        p2 <- at_index points 2 ;;
        Ok (s ++ "Q " ++ coords p1 ++ " " ++ coords p2)%string
    | 4%nat =>
        p1 <- at_index points 1 ;;
        p2 <- at_index points 2 ;;
        p3 <- at_index points 3 ;;
        Ok (s ++ "C " ++ coords p1 ++ " " ++ coords p2 ++ " " ++ coords p3)%string
    | _ => Throw (Error "Unsupported number of points")
    end.

Definition buildSplineDString (points : @Path V) (tension : V)
  : result string :=
  decomposed <- performCatmullRom points tension ;;
  p0 <- at_index points 0 ;;
  tokens <- mapM (fun c => buildSimplePathDString c false) decomposed ;;
  Ok ("M " ++ coords p0 ++ join " " tokens)%string.

(** The token of a segment, as the specification describes it: a
    line-to, a quadratic-curve-to with one control point or a
    cubic-curve-to with two, carrying the trailing points of the segment
    only. *)
Inductive segment_token : @Path V -> string -> Prop :=
| token_line p0 p1 :
    segment_token [p0; p1] ("L " ++ coords p1)%string
| token_quadratic p0 p1 p2 :
    segment_token [p0; p1; p2]
      ("Q " ++ coords p1 ++ " " ++ coords p2)%string
| token_cubic p0 p1 p2 p3 :
    segment_token [p0; p1; p2; p3]
      ("C " ++ coords p1 ++ " " ++ coords p2 ++ " " ++ coords p3)%string.

End WithArith.
End Serializer.

(** The other form of [lib/spline.js] among the sources:
    [buildSimplePathDString(points)] and
    [buildSplineDString(points, primitive = "cubic", tension = 1.0)]. *)
Module SerializerByPrimitive.
Import Spline.
Section WithArith.
Context {V : Type} {arith : JsArith V}.
Variable toString : V -> string.

Definition coords (p : Point) : string :=
  (toString (fst p) ++ " " ++ toString (snd p))%string.

Definition buildSimplePathDString (points : @Path V) : result string :=
  let n := List.length points in
  if (4 <? n)%nat then
    Throw (Error (natToString n ++
      " points do not form a simple curve (line segment, quadratic bezier, cubic bezier). Consider using Catmull-Rom or canonical spline decomposition"))
  else if negb (existsb (Nat.eqb n) [2; 3; 4]%nat) then
    Throw (Error
      "# Points must be 2, 3, or 4. Note that <svg> does not support drawing a single point. Use a <circle> instead.")
  else
    match n with
    | 2%nat =>
        p0 <- at_index points 0 ;;
        p1 <- at_index points 1 ;;
        Ok ("M " ++ coords p0 ++ " L " ++ coords p1)%string
    | 3%nat =>
        p0 <- at_index points 0 ;;
        p1 <- at_index points 1 ;;
        p2 <- at_index points 2 ;;
        Ok ("M " ++ coords p0 ++ " Q " ++ coords p1 ++ " " ++ coords p2)%string
    | 4%nat =>
        p0 <- at_index points 0 ;;
        p1 <- at_index points 1 ;;
        p2 <- at_index points 2 ;;
        p3 <- at_index points 3 ;;
        Ok ("M " ++ coords p0 ++ " C " ++ coords p1 ++ " " ++ coords p2
              ++ " " ++ coords p3)%string
    | _ => Throw (Error "Unsupported number of points")
    end.

Definition buildSplineDString (points : @Path V) (primitive : string)
  (tension : V) : result string :=
  decomposed <- (if String.eqb primitive "cubic"
                 then performCanonicalSpline points tension
                 else performCatmullRom points tension) ;;
  tokens <- mapM buildSimplePathDString decomposed ;;
  Ok (join " " tokens).

End WithArith.
End SerializerByPrimitive.

(** The number of occurrences of a character in a string. *)
Fixpoint count_char (c : ascii) (s : string) : nat :=
  match s with
  | EmptyString => 0
  | String a s' => (if Ascii.eqb a c then 1 else 0) + count_char c s'
  end.

(** *** How numbers print

    [undefined], [NaN], the infinities, both zeros and the integers below
    [1e21] print as JavaScript prints them.  A number with a fractional
    part prints with all the decimal digits of its binary value, where
    JavaScript stops at the first digit from which the number reads back
    unchanged ([0.1] prints here as [0.1000000000000000055...]), and no
    exponent is used for large or small magnitudes. *)

Definition digits (n : Z) : string :=
  NilZero.string_of_uint (N.to_uint (Z.to_N n)).

Definition drop_first (s : string) : string :=
  match s with
  | EmptyString => EmptyString
  | String _ rest => rest
  end.

(** Removes the zeros at the end. *)
Fixpoint strip_zeros (s : string) : string :=
  match s with
  | EmptyString => EmptyString
  | String c rest =>
      match strip_zeros rest with
      | EmptyString => if Ascii.eqb c "0" then EmptyString else String c EmptyString
      | rest' => String c rest'
      end
  end.

(** The decimal form of [m * 2^e], for [m > 0]. *)
Definition dyadic_toString (m e : Z) : string :=
  if (0 <=? e)%Z then digits (m * 2 ^ e)
  else
    let k := (- e)%Z in
    let n := (m * 5 ^ k)%Z in
    let fraction := strip_zeros (drop_first (digits (10 ^ k + n mod 10 ^ k))) in
    match fraction with
    | EmptyString => digits (n / 10 ^ k)
    | _ => (digits (n / 10 ^ k) ++ "." ++ fraction)%string
    end.

Definition num_toString (v : jsnum) : string :=
  match v with
  | Undefined => "undefined"
  | Num f =>
      match Prim2SF f with
      | S754_nan => "NaN"
      | S754_infinity false => "Infinity"
      | S754_infinity true => "-Infinity"
      | S754_zero _ => "0"
      | S754_finite false m e => dyadic_toString (Zpos m) e
      | S754_finite true m e => ("-" ++ dyadic_toString (Zpos m) e)%string
      end
  end.

(** ** lib/math/PointMath.js *)

Module PointMath.
Section WithArith.
Context {V : Type} {arith : JsArith V}.

Definition sum (p1 p2 : V * V) : V * V :=
  (js_add (fst p1) (fst p2), js_add (snd p1) (snd p2)).

End WithArith.
End PointMath.

(** ** lib/SVGBuilder.js: the path interpreter *)

(** [String.prototype.toUpperCase] on ASCII text. *)
Definition upper_ascii (c : ascii) : ascii :=
  let n := nat_of_ascii c in
  if ((97 <=? n) && (n <=? 122))%nat then ascii_of_nat (n - 32) else c.

Fixpoint toUpperCase (s : string) : string :=
  match s with
  | EmptyString => EmptyString
  | String c s' => String (upper_ascii c) (toUpperCase s')
  end.

Module StateMachine.
Section WithArith.
Context {V : Type} {arith : JsArith V}.

Definition Point : Type := V * V.

(** [@typedef SVGCommand]: [{ name, args }]. *)
Record SVGCommand : Type := { name : string; args : list V }.

(** The objects pushed on [geometry].  [p1] is the brush tip at the time
    of the push, hence [null] ([None]) when no tip was set. *)
Inductive SupportedGeometryData : Type :=
| Line (p1 : option Point) (p2 : Point)
| CubicBezier (p1 : option Point) (cp1 cp2 p2 : Point)
| QuadraticBezier (p1 : option Point) (cp p2 : Point)
| EllipseArc (absoluteStart : Point) (rX rY angle largeArcFlag sweepFlag : V)
             (absoluteEnd : Point).

(** The variables the closures of [executeSVGStateMachine] share. *)
Record State : Type := {
  geometry : list SupportedGeometryData;
  brushTip : option Point
}.

Definition setBrushTip (point : Point) (st : State) : State :=
  {| geometry := geometry st; brushTip := Some point |}.

Definition push (g : SupportedGeometryData) (st : State) : State :=
  {| geometry := geometry st ++ [g]; brushTip := brushTip st |}.

Definition fromBrushTip (st : State) (delta : Point) : result Point :=
  match brushTip st with
  | None => Throw (Error "Brush tip not set")
  | Some tip => Ok (PointMath.sum tip delta)
  end.

Definition shiftPointIfNeeded (st : State) (commandName : string)
  (value : Point) : result Point :=
  if String.eqb (toUpperCase commandName) commandName then Ok value
  else fromBrushTip st value.

(** [brushTip[k]]: a [TypeError] when the tip is [null]. *)
Definition tipCoordinates (st : State) : result Point :=
  match brushTip st with
  | None => Throw TypeError
  | Some tip => Ok tip
  end.

(** [g.p1] as a condition: [undefined] for an arc and [null] for a
    missing tip are both falsy. *)
Definition p1_of (g : SupportedGeometryData) : option Point :=
  match g with
  | Line p1 _ => p1
  | CubicBezier p1 _ _ _ => p1
  | QuadraticBezier p1 _ _ => p1
  | EllipseArc _ _ _ _ _ _ _ => None
  end.

Definition is_case (n : string) (upper lower : string) : bool :=
  String.eqb n upper || String.eqb n lower.

Definition processCommand (command : SVGCommand) (st : State) : result State :=
  let n := name command in
  (* array destructuring: a missing element is [undefined] *)
  let arg := fun k => nth k (args command) js_undefined in
  if is_case n "M" "m" then
    point <- shiftPointIfNeeded st n (arg 0%nat, arg 1%nat) ;;
    Ok (setBrushTip point st)
  else if is_case n "L" "l" then
    point <- shiftPointIfNeeded st n (arg 0%nat, arg 1%nat) ;;
    Ok (setBrushTip point (push (Line (brushTip st) point) st))
  else if is_case n "H" "h" then
    tip <- tipCoordinates st ;;
    point <- shiftPointIfNeeded st n (arg 0%nat, snd tip) ;;
    Ok (setBrushTip point (push (Line (brushTip st) point) st))
  else if is_case n "V" "v" then
    tip <- tipCoordinates st ;;
    point <- shiftPointIfNeeded st n (fst tip, arg 0%nat) ;;
    Ok (setBrushTip point (push (Line (brushTip st) point) st))
  else if is_case n "C" "c" then
    controlPoint1 <- shiftPointIfNeeded st n (arg 0%nat, arg 1%nat) ;;
    controlPoint2 <- shiftPointIfNeeded st n (arg 2%nat, arg 3%nat) ;;
    endPoint <- shiftPointIfNeeded st n (arg 4%nat, arg 5%nat) ;;
    Ok (setBrushTip endPoint
          (push (CubicBezier (brushTip st) controlPoint1 controlPoint2 endPoint) st))
  else if is_case n "Q" "q" then
    controlPoint <- shiftPointIfNeeded st n (arg 0%nat, arg 1%nat) ;;
    endPoint <- shiftPointIfNeeded st n (arg 2%nat, arg 3%nat) ;;
    Ok (setBrushTip endPoint
          (push (QuadraticBezier (brushTip st) controlPoint endPoint) st))
  else if is_case n "A" "a" then
    absoluteStart <- shiftPointIfNeeded st n (js_lit 0, js_lit 0) ;;
    absoluteEnd <- shiftPointIfNeeded st n (arg 5%nat, arg 6%nat) ;;
    Ok (push (EllipseArc absoluteStart (arg 0%nat) (arg 1%nat) (arg 2%nat)
                (arg 3%nat) (arg 4%nat) absoluteEnd) st)
  else if is_case n "Z" "z" then
    match geometry st with
    | first :: _ =>
        match p1_of first with
        | Some start => Ok (push (Line (brushTip st) start) st)
        | None => Ok st
        end
    | [] => Ok st
    end
  else Throw (Error ("Unsupported SVG command: " ++ n)).

(** [for (const command of svgCommands) processCommand(command)]. *)
Fixpoint processAll (svgCommands : list SVGCommand) (st : State) : result State :=
  match svgCommands with
  | [] => Ok st
  | command :: rest => st' <- processCommand command st ;; processAll rest st'
  end.

Definition initial : State := {| geometry := []; brushTip := None |}.

Definition executeSVGStateMachine (svgCommands : list SVGCommand)
  : result (list SupportedGeometryData) :=
  st <- processAll svgCommands initial ;;
  Ok (geometry st).

End WithArith.
End StateMachine.

(** ** lib/SVGBuilder.js: bounding boxes *)

Module BoundingBox.

Record Box : Type := { x : jsnum; y : jsnum; width : jsnum; height : jsnum }.

(** What an argument of [combineBoundingBoxes], or an element of its
    array argument, can be: [null], a box object or an array. *)
#[local] Unset Elimination Schemes.
Inductive Value : Type :=
| Null
| Obj (b : Box)
| Arr (elements : list Value).
#[local] Set Elimination Schemes.

(** [if (item)]: [null] is falsy, every object is truthy. *)
Definition truthy (item : Value) : bool :=
  match item with
  | Null => false
  | _ => true
  end.

(** [item.x] and the like; an array has no such property. *)
Definition field (f : Box -> jsnum) (item : Value) : jsnum :=
  match item with
  | Obj b => f b
  | _ => Undefined
  end.

Record Extent : Type := { minX : jsnum; minY : jsnum; maxX : jsnum; maxY : jsnum }.

Definition absorb (e : Extent) (item : Value) : Extent :=
  if truthy item then
    {| minX := Math_min (minX e) (field x item);
       minY := Math_min (minY e) (field y item);
       maxX := Math_max (maxX e) (num_add (field x item) (field width item));
       maxY := Math_max (maxY e) (num_add (field y item) (field height item)) |}
  else e.

Definition empty_extent : Extent :=
  {| minX := PosInf; minY := PosInf; maxX := NegInf; maxY := NegInf |}.

(** The object the function returns. *)
Definition extent_box (e : Extent) : Box :=
  {| x := minX e; y := minY e;
     width := num_sub (maxX e) (minX e);
     height := num_sub (maxY e) (minY e) |}.

(** [combineBoundingBoxes(...boxes)]; [None] is the result [null]. *)
Definition combineBoundingBoxes (boxes : list Value) : option Box :=
  match boxes with
  | [] => None
  | first :: _ =>
      let items := match first with
                   | Arr elements => elements
                   | _ => boxes
                   end in
      Some (extent_box (fold_left absorb items empty_extent))
  end.

(** A box or [null], as a value. *)
Definition entry (b : option Box) : Value :=
  match b with
  | Some b => Obj b
  | None => Null
  end.

(** [combineBoundingBoxes(a, b)]. *)
Definition combine (a b : option Box) : option Box :=
  combineBoundingBoxes [entry a; entry b].

(** A number other than [NaN] and the infinities. *)
Definition finite (v : jsnum) : Prop := is_finite (toNumber v) = true.

(** A number: a value that does not convert to [NaN]. *)
Definition number (v : jsnum) : Prop := PrimFloat.is_nan (toNumber v) = false.

Definition finite_box (b : Box) : Prop :=
  finite (x b) /\ finite (y b) /\ finite (width b) /\ finite (height b).

Definition finite_entry (e : option Box) : Prop :=
  match e with
  | Some b => finite_box b
  | None => True
  end.

(** The entries that are present. *)
Fixpoint present (entries : list (option Box)) : list Box :=
  match entries with
  | [] => []
  | Some b :: rest => b :: present rest
  | None :: rest => present rest
  end.

Definition right_edge (b : Box) : jsnum := num_add (x b) (width b).
Definition bottom_edge (b : Box) : jsnum := num_add (y b) (height b).

(** [m] is the least (greatest) element of [l]. *)
Definition least (m : jsnum) (l : list jsnum) : Prop :=
  In m l /\ forall v, In v l -> num_leb m v = true.

Definition greatest (m : jsnum) (l : list jsnum) : Prop :=
  In m l /\ forall v, In v l -> num_leb v m = true.

End BoundingBox.

(** ** Concrete inputs *)

Definition pt (x y : Z) : jsnum * jsnum := (num_lit x, num_lit y).

(** The quotient [n / d] of two integer literals, rounded as the division
    rounds it. *)
Definition frac (n : Z) (d : positive) : jsnum := num_div (num_lit n) (num_lit (Zpos d)).

(** The square of the fitting scenario. *)
Definition square : @Spline.Path jsnum := [pt 0 0; pt 10 0; pt 10 10; pt 0 10].

(** A parsed clause of a path string: [cmd "L" [5; 5]] is ["L 5 5"]. *)
Definition cmd (n : string) (a : list Z) : @StateMachine.SVGCommand jsnum :=
  {| StateMachine.name := n; StateMachine.args := map num_lit a |}.

Definition box (bx by_ w h : Z) : BoundingBox.Box :=
  {| BoundingBox.x := num_lit bx; BoundingBox.y := num_lit by_;
     BoundingBox.width := num_lit w; BoundingBox.height := num_lit h |}.

(** The result of combining no present entry. *)
Definition unbounded_box : BoundingBox.Box :=
  {| BoundingBox.x := PosInf; BoundingBox.y := PosInf;
     BoundingBox.width := NegInf; BoundingBox.height := NegInf |}.

(** Points of a pentagon-like path, pairwise distinct. *)
Definition five_points : @Spline.Path jsnum :=
  [pt 0 0; pt 10 0; pt 10 10; pt 0 10; pt (-5) 5].

Definition three_points : @Spline.Path jsnum := [pt 0 0; pt 10 0; pt 10 10].

(** A square whose fit at tension [1.0] has integer control points. *)
Definition square6 : @Spline.Path jsnum := [pt 0 0; pt 6 0; pt 6 6; pt 0 6].

(** The box with the given tenths as coordinates: [tenths 1 0 2 0] is
    [{x: 0.1, y: 0, width: 0.2, height: 0}]. *)
Definition tenths (bx by_ w h : Z) : BoundingBox.Box :=
  {| BoundingBox.x := frac bx 10; BoundingBox.y := frac by_ 10;
     BoundingBox.width := frac w 10; BoundingBox.height := frac h 10 |}.

(** The entries of the combination scenario. *)
Definition scenario_entries : list (option BoundingBox.Box) :=
  [Some (box 0 0 10 5); None; Some (box 5 (-5) 10 10)].

(** ** lib/SVGBuilder.js: line sequences *)

(** A loop that updates one variable and stops at the first exception. *)
Fixpoint foldM {A S : Type} (f : S -> A -> result S) (l : list A) (s : S)
  : result S :=
  match l with
  | [] => Ok s
  | x :: l' => s' <- f s x ;; foldM f l' s'
  end.

Module PathStrings.
Section WithArith.
Context {V : Type} {arith : JsArith V}.

(** [`${v}`]: the conversion of a number to a string. *)
Variable toString : V -> string.

Definition coords (p : V * V) : string :=
  (toString (fst p) ++ " " ++ toString (snd p))%string.

Definition buildDStringForLineSequence (points : list (V * V)) (close : bool)
  : result string :=
  p0 <- at_index points 0 ;;
  d <- foldM (fun d i => p <- at_index points i ;;
                         Ok (d ++ " L " ++ coords p)%string)
         (range 1 (Z.of_nat (List.length points)))
         ("M " ++ coords p0)%string ;;
  Ok (if close then (d ++ " Z")%string else d).

(** The clause of a point after the first. *)
Definition lineTo (p : V * V) : string := ("L " ++ coords p)%string.

End WithArith.
End PathStrings.

(** ** lib/SVGBuilder.js: unique identifiers *)

Module UniqueId.
Section WithData.

(** The values passed as [identifyingData], their truthiness and
    [JSON.stringify]. *)
Variable Data : Type.
Variable truthy : Data -> bool.
Variable stringify : Data -> string.

(** The two fields of [SVGBuilder] that [getUniqueId] reads and writes.
    [idMap] is a [Map] from keys to identifiers: a key is [set] only when
    [has] fails, so each key occurs once. *)
Record Builder : Type := {
  idMap : list (string * string);
  uniqueIdCounter : nat
}.

(** [idMap.get(key)], [None] when [idMap.has(key)] fails. *)
Fixpoint get (key : string) (m : list (string * string)) : option string :=
  match m with
  | [] => None
  | (k, id) :: m' => if String.eqb k key then Some id else get key m'
  end.

(** [`id${n}`]. *)
Definition idOf (n : nat) : string := ("id" ++ natToString n)%string.

Definition getUniqueId (prefix : string) (identifyingData : Data) (b : Builder)
  : string * Builder :=
  if truthy identifyingData then
    let key := (prefix ++ ":" ++ stringify identifyingData)%string in
    match get key (idMap b) with
    | None =>
        let newId := idOf (uniqueIdCounter b) in
        (newId, {| idMap := (key, newId) :: idMap b;
                   uniqueIdCounter := S (uniqueIdCounter b) |})
    | Some id => (id, b)
    end
  else
    (idOf (uniqueIdCounter b),
     {| idMap := idMap b; uniqueIdCounter := S (uniqueIdCounter b) |}).

(** The builder a constructor call makes. *)
Definition fresh : Builder := {| idMap := []; uniqueIdCounter := 0 |}.

(** Every identifier in the map was made from a counter value already
    used, and no identifier is mapped to by two keys. *)
Definition well_formed (b : Builder) : Prop :=
  (forall key id, get key (idMap b) = Some id ->
     exists n, (n < uniqueIdCounter b)%nat /\ id = idOf n) /\
  (forall key1 key2 id,
     get key1 (idMap b) = Some id -> get key2 (idMap b) = Some id ->
     key1 = key2).

End WithData.

Arguments getUniqueId {Data} truthy stringify prefix identifyingData b.

End UniqueId.

(** ** lib/SVGBuilder.js: the bounding box of the content *)

Module ContentBounds.
Import BoundingBox.
Section WithBounds.

(** What [processElement] computes from the text of an element before it
    calls [incorporateBoundingBox]: the match of the [d] attribute
    ("Invalid path data" when there is not exactly one) and the bounds that
    the library [svg-path-bounding-box] returns for it. *)
Variable elementBounds : string -> result Box.

Definition incorporateBoundingBox (boundingBox : option Box) (b : Box)
  : option Box :=
  match boundingBox with
  | None => Some b
  | Some current => combineBoundingBoxes [Obj current; Obj b]
  end.

Definition getContentBoundingBox (elements : list string)
  : result (option Box) :=
  foldM (fun boundingBox elementText =>
           b <- elementBounds elementText ;;
           Ok (incorporateBoundingBox boundingBox b))
    elements None.

(** [adjustViewboxToFitContent]: the new [viewBox], and whether the
    warning was issued. *)
Definition adjustViewboxToFitContent (elements : list string)
  (viewBox : option Box) : result (option Box * bool) :=
  boundingBox <- getContentBoundingBox elements ;;
  match boundingBox with
  | Some _ =>
      again <- getContentBoundingBox elements ;;
      Ok (again, false)
  | None => Ok (viewBox, true)
  end.

End WithBounds.
End ContentBounds.

(** ** Vocabulary of the properties of the interpreter *)

Module StateMachineTerms.
Import StateMachine.
Section WithArith.
Context {V : Type} {arith : JsArith V}.

(** The names [processCommand] has a case for. *)
Definition supported_names : list string :=
  ["M"; "m"; "L"; "l"; "H"; "h"; "V"; "v";
   "C"; "c"; "Q"; "q"; "A"; "a"; "Z"; "z"]%string.

(** The names of the commands that draw a line or a curve and then move
    the brush tip to its end. *)
Definition stroke_names : list string :=
  ["L"; "l"; "H"; "h"; "V"; "v"; "C"; "c"; "Q"; "q"]%string.

Definition arc_names : list string := ["A"; "a"]%string.

(** Where a primitive ends. *)
Definition end_of (g : @SupportedGeometryData V) : Point :=
  match g with
  | Line _ p2 => p2
  | CubicBezier _ _ _ p2 => p2
  | QuadraticBezier _ _ p2 => p2
  | EllipseArc _ _ _ _ _ _ absoluteEnd => absoluteEnd
  end.

(** Each primitive starts where the previous one ends, the first one at
    [start]. *)
Fixpoint chained (start : Point) (gs : list (@SupportedGeometryData V)) : Prop :=
  match gs with
  | [] => True
  | g :: rest => p1_of g = Some start /\ chained (end_of g) rest
  end.

(** The end of the last primitive, [start] when there is none. *)
Fixpoint chain_end (start : Point) (gs : list (@SupportedGeometryData V)) : Point :=
  match gs with
  | [] => start
  | g :: rest => chain_end (end_of g) rest
  end.

(** The absolute command [n x y] to the point [(x, y)]. *)
Definition absolute (n : string) (p : Point) : @SVGCommand V :=
  {| name := n; args := [fst p; snd p] |}.

Definition closePath : @SVGCommand V := {| name := "Z"; args := [] |}.

(** The edges of the polyline from [start] through [rest]. *)
Fixpoint edges (start : Point) (rest : list Point)
  : list (@SupportedGeometryData V) :=
  match rest with
  | [] => []
  | p :: rest' => Line (Some start) p :: edges p rest'
  end.

End WithArith.
End StateMachineTerms.

(** ** Results without a number *)

(** The box whose four fields are [NaN]. *)
Definition nan_box : BoundingBox.Box :=
  {| BoundingBox.x := NaN; BoundingBox.y := NaN;
     BoundingBox.width := NaN; BoundingBox.height := NaN |}.

Definition nan_extent : BoundingBox.Extent :=
  {| BoundingBox.minX := NaN; BoundingBox.minY := NaN;
     BoundingBox.maxX := NaN; BoundingBox.maxY := NaN |}.

(** ** Sequences of [getUniqueId] calls *)

Module UniqueIdCalls.
Import UniqueId.
Section WithData.
Variable Data : Type.
Variable truthy : Data -> bool.
Variable stringify : Data -> string.

(** The key [getUniqueId] computes for truthy data. *)
Definition keyOf (call : string * Data) : string :=
  (fst call ++ ":" ++ stringify (snd call))%string.

(** The identifiers returned by successive calls, each call working on the
    builder the previous one left. *)
Fixpoint getUniqueIds (calls : list (string * Data)) (b : Builder) : list string :=
  match calls with
  | [] => []
  | call :: rest =>
      let r := getUniqueId truthy stringify (fst call) (snd call) b in
      fst r :: getUniqueIds rest (snd r)
  end.

End WithData.

Arguments keyOf {Data} stringify call.
Arguments getUniqueIds {Data} truthy stringify calls b.

End UniqueIdCalls.

(** ** Further concrete inputs *)

(** A stand-in for the bounds of three elements; any other text has no
    [d] attribute. *)
Definition sample_bounds (elementText : string) : result BoundingBox.Box :=
  if String.eqb elementText "first" then Ok (box 0 0 10 5)
  else if String.eqb elementText "second" then Ok (box 5 (-5) 10 10)
  else if String.eqb elementText "third" then Ok (box (-2) 1 1 1)
  else Throw (Error "Invalid path data").

(** Data that are strings: the empty string is falsy; [JSON.stringify] is
    replaced by the identity, which is injective as well. *)
Definition string_truthy (s : string) : bool := negb (String.eqb s "").
Definition string_stringify (s : string) : string := s.

Definition sample_calls : list (string * string) :=
  [("fill", "red"); ("stroke", "red"); ("fill", "red"); ("fill", "")]%string.

(** The state of the interpreter after ["M 1 2"]. *)
Definition moved : @StateMachine.State jsnum :=
  {| StateMachine.geometry := []; StateMachine.brushTip := Some (pt 1 2) |}.
(* ================================================================== *)
(** * Part II: properties *)
(* ================================================================== *)

(** ** Proof automation *)

(** Equality of computed values. *)
Ltac computed := vm_compute; reflexivity.

(** ** Loops *)

Lemma mapM_Forall2 {A B : Type} (f : A -> result B) (l : list A) (ys : list B) :
  mapM f l = Ok ys <-> Forall2 (fun x y => f x = Ok y) l ys.
Proof.
  revert ys; induction l as [|x l IH]; intros ys; simpl.
  - split; intros E.
    + injection E as <-. constructor.
    + inversion E. reflexivity.
  - split.
    + destruct (f x) as [y|e] eqn:Ex; simpl; [|discriminate].
      destruct (mapM f l) as [zs|e] eqn:El; simpl; [|discriminate].
      intros E; injection E as <-. constructor; [exact Ex|]. now apply IH.
    + intros E; inversion E as [|? y ? zs Ex El]; subst.
      rewrite Ex; simpl. apply IH in El. rewrite El. reflexivity.
Qed.

Lemma mapM_total {A B : Type} (f : A -> result B) (l : list A) :
  (forall x, In x l -> exists y, f x = Ok y) ->
  exists ys, mapM f l = Ok ys.
Proof.
  induction l as [|x l IH]; intros Hf; simpl.
  - now exists [].
  - destruct (Hf x (or_introl eq_refl)) as [y ->].
    destruct IH as [ys ->]; [intros; apply Hf; now right|].
    now exists (y :: ys).
Qed.

Lemma Forall2_nth_error_l {A B : Type} (R : A -> B -> Prop) l ys k x :
  Forall2 R l ys -> nth_error l k = Some x ->
  exists y, nth_error ys k = Some y /\ R x y.
Proof.
  intros F; revert k; induction F as [|a b l ys Hab F IH]; intros [|k]; simpl;
    try discriminate.
  - intros [= <-]. now exists b.
  - apply IH.
Qed.

Lemma range_length lo hi : List.length (range lo hi) = Z.to_nat (hi - lo).
Proof. unfold range. now rewrite length_map, length_seq. Qed.

Lemma range_nth_error lo hi k :
  (k < Z.to_nat (hi - lo))%nat ->
  nth_error (range lo hi) k = Some (lo + Z.of_nat k)%Z.
Proof.
  intros Hk. unfold range.
  rewrite nth_error_map, nth_error_seq.
  destruct (Nat.ltb_spec k (Z.to_nat (hi - lo))); [reflexivity|lia].
Qed.

Lemma range_In lo hi i : In i (range lo hi) -> (lo <= i < hi)%Z.
Proof.
  unfold range. rewrite in_map_iff. intros (k & <- & Hk).
  apply in_seq in Hk. lia.
Qed.

Lemma at_index_nth {A : Type} (a : list A) (k : nat) (x : A) :
  nth_error a k = Some x -> at_index a (Z.of_nat k) = Ok x.
Proof.
  intros E. unfold at_index.
  destruct (Z.ltb_spec (Z.of_nat k) 0); [lia|].
  now rewrite Nat2Z.id, E.
Qed.

Lemma at_index_in_range {A : Type} (a : list A) (i : Z) :
  (0 <= i < Z.of_nat (List.length a))%Z ->
  exists x, at_index a i = Ok x /\ nth_error a (Z.to_nat i) = Some x.
Proof.
  intros Hi. unfold at_index.
  destruct (Z.ltb_spec i 0); [lia|].
  destruct (nth_error a (Z.to_nat i)) as [x|] eqn:E.
  - now exists x.
  - apply nth_error_None in E. lia.
Qed.

(** ** Spline fitting *)

Module SplineFacts.
Import Spline.
Section WithArith.
Context {V : Type} {arith : JsArith V}.
Implicit Types (points : @Path V) (tension : V).

(** One iteration of the Catmull-Rom loop succeeds whenever [i] and
    [i + 1] are valid indices, and copies [points[i]] and [points[i+1]]
    to the two ends of the segment. *)
Lemma catmullRomSegment_ok points tension (k : nat) (p q : Point) :
  nth_error points k = Some p ->
  nth_error points (S k) = Some q ->
  exists cp1 cp2,
    catmullRomSegment points tension (Z.of_nat k) = Ok [p; cp1; cp2; q].
Proof.
  intros Hp Hq.
  assert (Hk : (S k < List.length points)%nat)
    by (apply nth_error_Some; congruence).
  unfold catmullRomSegment.
  destruct (at_index_in_range points (Z.max (Z.of_nat k - 1) 0))
    as (p0 & -> & _); [lia|].
  rewrite (at_index_nth _ _ _ Hp).
  replace (Z.of_nat k + 1)%Z with (Z.of_nat (S k)) by lia.
  rewrite (at_index_nth _ _ _ Hq).
  destruct (at_index_in_range points
              (Z.min (Z.of_nat k + 2) (len points - 1)))
    as (p3 & -> & _); [unfold len; lia|].
  simpl. eauto.
Qed.

(** The same for the Canonical-Spline loop, with the control points it
    computes. *)
Lemma canonicalSplineSegment_ok points tension (k : nat) (p0 p1 p2 p3 : Point) :
  nth_error points k = Some p0 ->
  nth_error points (k + 1) = Some p1 ->
  nth_error points (k + 2) = Some p2 ->
  nth_error points (k + 3) = Some p3 ->
  canonicalSplineSegment points tension (Z.of_nat (k + 1)) =
  Ok [p1;
      (js_add (fst p1) (js_mul (js_div (js_sub (fst p2) (fst p0)) (js_lit 6)) tension),
       js_add (snd p1) (js_mul (js_div (js_sub (snd p2) (snd p0)) (js_lit 6)) tension));
      (js_sub (fst p2) (js_mul (js_div (js_sub (fst p3) (fst p1)) (js_lit 6)) tension),
       js_sub (snd p2) (js_mul (js_div (js_sub (snd p3) (snd p1)) (js_lit 6)) tension));
      p2].
Proof.
  intros H0 H1 H2 H3. unfold canonicalSplineSegment.
  replace (Z.of_nat (k + 1) - 1)%Z with (Z.of_nat k) by lia.
  replace (Z.of_nat (k + 1) + 1)%Z with (Z.of_nat (k + 2)) by lia.
  replace (Z.of_nat (k + 1) + 2)%Z with (Z.of_nat (k + 3)) by lia.
  rewrite (at_index_nth _ _ _ H0), (at_index_nth _ _ _ H1),
    (at_index_nth _ _ _ H2), (at_index_nth _ _ _ H3).
  reflexivity.
Qed.

Lemma nth_error_in_range {A : Type} (l : list A) (k : nat) :
  (k < List.length l)%nat -> exists x, nth_error l k = Some x.
Proof.
  intros Hk. destruct (nth_error l k) as [x|] eqn:E; [eauto|].
  apply nth_error_None in E. lia.
Qed.

Lemma catmullRomSegment_shape points tension (i : Z) (seg : Path) :
  catmullRomSegment points tension i = Ok seg ->
  exists a b c d, seg = [a; b; c; d].
Proof.
  unfold catmullRomSegment.
  destruct (at_index points (Z.max (i - 1) 0)) as [p0|]; simpl; [|discriminate].
  destruct (at_index points i) as [p1|]; simpl; [|discriminate].
  destruct (at_index points (i + 1)) as [p2|]; simpl; [|discriminate].
  destruct (at_index points (Z.min (i + 2) (len points - 1))) as [p3|]; simpl;
    [|discriminate].
  intros [= <-]. eauto.
Qed.

(** On four points or more the Catmull-Rom loop runs to its end, and
    every segment it pushes has four points. *)
Lemma performCatmullRom_cubics points tension :
  (4 <= List.length points)%nat ->
  exists segs : SimplePathList,
    performCatmullRom points tension = Ok segs /\
    Forall (fun seg => exists a b c d, seg = [a; b; c; d]) segs.
Proof.
  intros Hn. unfold performCatmullRom.
  destruct (Z.eqb_spec (len points) 0); [unfold len in *; lia|].
  destruct (Z.ltb_spec (len points) 4); [unfold len in *; lia|].
  destruct (mapM_total (catmullRomSegment points tension)
              (range 0 (len points - 1))) as [segs Hsegs].
  { intros i Hi. apply range_In in Hi. unfold len in Hi.
    destruct (nth_error_in_range points (Z.to_nat i)) as [p Hp]; [lia|].
    destruct (nth_error_in_range points (S (Z.to_nat i))) as [q Hq]; [lia|].
    destruct (catmullRomSegment_ok points tension _ p q Hp Hq) as (cp1 & cp2 & E).
    rewrite Z2Nat.id in E by lia. eauto. }
  exists segs. split; [exact Hsegs|].
  apply mapM_Forall2 in Hsegs.
  induction Hsegs as [|i seg l segs Hi _ IH]; constructor; [|exact IH].
  exact (catmullRomSegment_shape _ _ _ _ Hi).
Qed.

(** C1. Catmull-Rom fitting of [n >= 4] points returns [n - 1] cubic
    segments, and for every [i] in [[0, n-2]] segment [i] starts at
    [points[i]] and ends at [points[i+1]], whatever the tension. *)
Theorem performCatmullRom_interpolates points tension :
  (4 <= List.length points)%nat ->
  exists segs : SimplePathList,
    performCatmullRom points tension = Ok segs /\
    List.length segs = (List.length points - 1)%nat /\
    forall i, (i <= List.length points - 2)%nat ->
      exists p q cp1 cp2,
        nth_error points i = Some p /\
        nth_error points (i + 1) = Some q /\
        nth_error segs i = Some [p; cp1; cp2; q].
Proof.
  intros Hn. unfold performCatmullRom.
  destruct (Z.eqb_spec (len points) 0); [unfold len in *; lia|].
  destruct (Z.ltb_spec (len points) 4); [unfold len in *; lia|].
  assert (Hbody : forall k, (k < List.length points - 1)%nat ->
            exists p q cp1 cp2,
              nth_error points k = Some p /\ nth_error points (k + 1) = Some q /\
              catmullRomSegment points tension (Z.of_nat k) = Ok [p; cp1; cp2; q]).
  { intros k Hk.
    destruct (nth_error_in_range points k) as [p Hp]; [lia|].
    destruct (nth_error_in_range points (S k)) as [q Hq]; [lia|].
    destruct (catmullRomSegment_ok points tension k p q Hp Hq) as (cp1 & cp2 & E).
    exists p, q, cp1, cp2. now rewrite Nat.add_1_r. }
  destruct (mapM_total (catmullRomSegment points tension)
              (range 0 (len points - 1))) as [segs Hsegs].
  { intros i Hi. apply range_In in Hi.
    destruct (Hbody (Z.to_nat i)) as (p & q & cp1 & cp2 & _ & _ & E).
    - unfold len in Hi. lia.
    - rewrite Z2Nat.id in E by lia. eauto. }
  exists segs. split; [exact Hsegs|].
  apply mapM_Forall2 in Hsegs.
  assert (Hlen : List.length segs = (List.length points - 1)%nat).
  { rewrite <- (Forall2_length Hsegs), range_length. unfold len. lia. }
  split; [exact Hlen|].
  intros i Hi.
  destruct (Hbody i) as (p & q & cp1 & cp2 & Hp & Hq & E); [lia|].
  exists p, q, cp1, cp2. repeat split; try assumption.
  assert (Hi' : nth_error (range 0 (len points - 1)) i = Some (Z.of_nat i)).
  { rewrite range_nth_error by (unfold len; lia). f_equal; lia. }
  destruct (Forall2_nth_error_l _ _ _ i (Z.of_nat i) Hsegs Hi')
    as (seg & Hseg & Eseg).
  rewrite E in Eseg. injection Eseg as <-. exact Hseg.
Qed.

(** C8. The Canonical-Spline fit of [n >= 5] points returns [n - 3]
    segments, one for each [i] in [[1, n-3]]: segment [i] is
    [[p1, cp1, cp2, p2]] with [p0 .. p3 = points[i-1] .. points[i+2]],
    [cp1 = p1 + ((p2 - p0) / 6) * tension] and
    [cp2 = p2 - ((p3 - p1) / 6) * tension], the products written as the
    source evaluates them.  The ends of the segments are therefore the
    input points of index [1] to [n - 2]: when the input points are
    pairwise distinct, neither the first nor the last of them is an end
    of any segment. *)
Theorem performCanonicalSpline_segments points tension :
  (5 <= List.length points)%nat ->
  exists segs : SimplePathList,
    performCanonicalSpline points tension = Ok segs /\
    List.length segs = (List.length points - 3)%nat /\
    (forall i, (1 <= i <= List.length points - 3)%nat ->
       exists p0 p1 p2 p3 : Point,
         nth_error points (i - 1) = Some p0 /\
         nth_error points i = Some p1 /\
         nth_error points (i + 1) = Some p2 /\
         nth_error points (i + 2) = Some p3 /\
         nth_error segs (i - 1) =
         Some [p1;
               (js_add (fst p1)
                  (js_mul (js_div (js_sub (fst p2) (fst p0)) (js_lit 6)) tension),
                js_add (snd p1)
                  (js_mul (js_div (js_sub (snd p2) (snd p0)) (js_lit 6)) tension));
               (js_sub (fst p2)
                  (js_mul (js_div (js_sub (fst p3) (fst p1)) (js_lit 6)) tension),
                js_sub (snd p2)
                  (js_mul (js_div (js_sub (snd p3) (snd p1)) (js_lit 6)) tension));
               p2]) /\
    (NoDup points ->
     forall seg e, In seg segs ->
       nth_error seg 0 = Some e \/ nth_error seg 3 = Some e ->
       nth_error points 0 <> Some e /\
       nth_error points (List.length points - 1) <> Some e).
Proof.
  intros Hn. unfold performCanonicalSpline.
  destruct (Z.eqb_spec (len points) 0); [unfold len in *; lia|].
  destruct (Z.ltb_spec (len points) 5); [unfold len in *; lia|].
  set (cps := fun p0 p1 p2 p3 : Point =>
    [p1;
     (js_add (fst p1) (js_mul (js_div (js_sub (fst p2) (fst p0)) (js_lit 6)) tension),
      js_add (snd p1) (js_mul (js_div (js_sub (snd p2) (snd p0)) (js_lit 6)) tension));
     (js_sub (fst p2) (js_mul (js_div (js_sub (fst p3) (fst p1)) (js_lit 6)) tension),
      js_sub (snd p2) (js_mul (js_div (js_sub (snd p3) (snd p1)) (js_lit 6)) tension));
     p2]).
  assert (Hbody : forall k, (k < List.length points - 3)%nat ->
            exists p0 p1 p2 p3,
              nth_error points k = Some p0 /\ nth_error points (k + 1) = Some p1 /\
              nth_error points (k + 2) = Some p2 /\ nth_error points (k + 3) = Some p3 /\
              canonicalSplineSegment points tension (Z.of_nat (k + 1)) =
              Ok (cps p0 p1 p2 p3)).
  { intros k Hk.
    destruct (nth_error_in_range points k) as [p0 H0]; [lia|].
    destruct (nth_error_in_range points (k + 1)) as [p1 H1]; [lia|].
    destruct (nth_error_in_range points (k + 2)) as [p2 H2]; [lia|].
    destruct (nth_error_in_range points (k + 3)) as [p3 H3]; [lia|].
    exists p0, p1, p2, p3. repeat split; try assumption.
    now apply canonicalSplineSegment_ok. }
  destruct (mapM_total (canonicalSplineSegment points tension)
              (range 1 (len points - 2))) as [segs Hsegs].
  { intros i Hi. apply range_In in Hi.
    destruct (Hbody (Z.to_nat i - 1)%nat) as (p0 & p1 & p2 & p3 & _ & _ & _ & _ & E).
    - unfold len in Hi. lia.
    - replace (Z.of_nat (Z.to_nat i - 1 + 1)) with i in E by lia. eauto. }
  exists segs. split; [exact Hsegs|].
  apply mapM_Forall2 in Hsegs.
  assert (Hlen : List.length segs = (List.length points - 3)%nat).
  { rewrite <- (Forall2_length Hsegs), range_length. unfold len. lia. }
  assert (Hseg : forall k, (k < List.length points - 3)%nat ->
            exists p0 p1 p2 p3,
              nth_error points k = Some p0 /\ nth_error points (k + 1) = Some p1 /\
              nth_error points (k + 2) = Some p2 /\ nth_error points (k + 3) = Some p3 /\
              nth_error segs k = Some (cps p0 p1 p2 p3)).
  { intros k Hk.
    destruct (Hbody k Hk) as (p0 & p1 & p2 & p3 & H0 & H1 & H2 & H3 & E).
    exists p0, p1, p2, p3. repeat split; try assumption.
    assert (Hk' : nth_error (range 1 (len points - 2)) k = Some (Z.of_nat (k + 1))).
    { rewrite range_nth_error by (unfold len; lia). f_equal; lia. }
    destruct (Forall2_nth_error_l _ _ _ k (Z.of_nat (k + 1)) Hsegs Hk')
      as (seg & Hs & Es).
    rewrite E in Es. injection Es as <-. exact Hs. }
  split; [exact Hlen|]. split.
  - intros i Hi.
    destruct (Hseg (i - 1)%nat) as (p0 & p1 & p2 & p3 & H0 & H1 & H2 & H3 & E); [lia|].
    exists p0, p1, p2, p3.
    replace (i - 1 + 1)%nat with i in H1 by lia.
    replace (i - 1 + 2)%nat with (i + 1)%nat in H2 by lia.
    replace (i - 1 + 3)%nat with (i + 2)%nat in H3 by lia.
    repeat split; assumption.
  - intros Hnd seg e Hin He.
    apply In_nth_error in Hin. destruct Hin as [k Hk].
    assert (Hk' : (k < List.length points - 3)%nat).
    { rewrite <- Hlen. apply nth_error_Some. congruence. }
    destruct (Hseg k Hk') as (p0 & p1 & p2 & p3 & H0 & H1 & H2 & H3 & E).
    rewrite Hk in E. injection E as ->. unfold cps in He. simpl in He.
    assert (Hj : exists j, (1 <= j <= List.length points - 2)%nat /\
                           nth_error points j = Some e).
    { destruct He as [[= <-]|[= <-]]; [exists (k + 1)%nat|exists (k + 2)%nat];
        (split; [lia|assumption]). }
    destruct Hj as (j & Hj & Ej).
    rewrite <- Ej. split; intros Eq.
    + apply (proj1 (NoDup_nth_error points) Hnd) in Eq; lia.
    + apply (proj1 (NoDup_nth_error points) Hnd) in Eq; lia.
Qed.

(** C9. A non-empty input below the threshold of the algorithm (4 points
    for Catmull-Rom, 5 for the Canonical Spline) is returned as it is, as
    the only element of the segment list; no arithmetic takes place, the
    result being the same for every interpretation of the operations. *)
Theorem short_input_returned_unchanged points tension :
  points <> [] ->
  ((List.length points < 4)%nat ->
     performCatmullRom points tension = Ok [points]) /\
  ((List.length points < 5)%nat ->
     performCanonicalSpline points tension = Ok [points]).
Proof.
  intros Hne.
  assert (Hpos : (0 < len points)%Z).
  { unfold len. destruct points; [congruence|simpl; lia]. }
  split; intros Hlt.
  - unfold performCatmullRom.
    destruct (Z.eqb_spec (len points) 0); [lia|].
    destruct (Z.ltb_spec (len points) 4); [reflexivity|unfold len in *; lia].
  - unfold performCanonicalSpline.
    destruct (Z.eqb_spec (len points) 0); [lia|].
    destruct (Z.ltb_spec (len points) 5); [reflexivity|unfold len in *; lia].
Qed.

End WithArith.
End SplineFacts.

(** ** Serialization *)

Lemma count_char_app (c : ascii) (s1 s2 : string) :
  count_char c (s1 ++ s2) = (count_char c s1 + count_char c s2)%nat.
Proof.
  induction s1 as [|a s1 IH]; simpl; [reflexivity|]. rewrite IH. lia.
Qed.

Lemma count_char_join (c : ascii) (sep : string) (l : list string) :
  count_char c sep = 0%nat ->
  Forall (fun s => count_char c s = 0%nat) l ->
  count_char c (join sep l) = 0%nat.
Proof.
  intros Hsep H. induction H as [|s l Hs Hl IH]; simpl; [reflexivity|].
  destruct l as [|s' l]; [exact Hs|].
  rewrite !count_char_app, Hs, Hsep. exact IH.
Qed.

Lemma string_of_uint_no_M (d : Decimal.uint) :
  count_char "M" (NilEmpty.string_of_uint d) = 0%nat.
Proof. induction d; simpl; assumption || reflexivity. Qed.

Lemma string_of_int_no_M (d : Decimal.int) :
  count_char "M" (NilZero.string_of_int d) = 0%nat.
Proof.
  destruct d as [d|d]; simpl; destruct d; simpl;
    try reflexivity; apply string_of_uint_no_M.
Qed.

Lemma digits_no_M (n : Z) : count_char "M" (digits n) = 0%nat.
Proof.
  unfold digits. destruct (N.to_uint (Z.to_N n)); simpl;
    try reflexivity; apply string_of_uint_no_M.
Qed.

Lemma drop_first_no_M (s : string) :
  count_char "M" s = 0%nat -> count_char "M" (drop_first s) = 0%nat.
Proof.
  destruct s as [|c s]; simpl; [reflexivity|].
  destruct (Ascii.eqb c "M"); [discriminate|]. trivial.
Qed.

Lemma strip_zeros_no_M (s : string) :
  count_char "M" s = 0%nat -> count_char "M" (strip_zeros s) = 0%nat.
Proof.
  induction s as [|c s IH]; simpl; [reflexivity|].
  destruct (Ascii.eqb c "M") eqn:Ec; [discriminate|]. simpl. intros Hs.
  specialize (IH Hs).
  destruct (strip_zeros s) as [|c' s'].
  - destruct (Ascii.eqb c "0"); simpl; [reflexivity|]. now rewrite Ec.
  - cbn [count_char]. rewrite Ec. exact IH.
Qed.

Lemma dyadic_toString_no_M (m e : Z) :
  count_char "M" (dyadic_toString m e) = 0%nat.
Proof.
  unfold dyadic_toString. destruct (0 <=? e)%Z; [apply digits_no_M|].
  match goal with
  | |- context [strip_zeros ?s] =>
      pose proof (strip_zeros_no_M s) as H; destruct (strip_zeros s)
  end.
  - apply digits_no_M.
  - rewrite !count_char_app, digits_no_M. simpl.
    apply H, drop_first_no_M, digits_no_M.
Qed.

(** No number prints with the letter [M] in it. *)
Lemma num_toString_no_M (v : jsnum) : count_char "M" (num_toString v) = 0%nat.
Proof.
  destruct v as [|f]; [reflexivity|].
  unfold num_toString.
  destruct (Prim2SF f) as [s|[|]| |[|] m e]; try reflexivity.
  - rewrite count_char_app. simpl. apply dyadic_toString_no_M.
  - apply dyadic_toString_no_M.
Qed.

Module SerializerFacts.
Import Spline Serializer.
#[local] Open Scope string_scope.
Section WithArith.
Context {V : Type} {arith : JsArith V}.
Variable toString : V -> string.
Implicit Types (points : @Path V) (tension : V).

Lemma buildSimplePathDString_token (c : @Path V) :
  (2 <= List.length c <= 4)%nat ->
  exists t, buildSimplePathDString toString c false = Ok t /\
            segment_token toString c t.
Proof.
  intros Hc.
  destruct c as [|p0 [|p1 [|p2 [|p3 [|p4 c]]]]]; simpl in Hc; try lia;
    eexists; (split; [reflexivity|constructor]).
Qed.

Lemma tokens_exist (segs : @SimplePathList V) :
  Forall (fun c => (2 <= List.length c <= 4)%nat) segs ->
  exists tokens,
    mapM (fun c => buildSimplePathDString toString c false) segs = Ok tokens /\
    Forall2 (segment_token toString) segs tokens.
Proof.
  intros H. induction H as [|c segs Hc _ IH]; simpl.
  - exists []. split; [reflexivity|constructor].
  - destruct (buildSimplePathDString_token c Hc) as (t & -> & Ht).
    destruct IH as (tokens & -> & Hts).
    exists (t :: tokens). split; [reflexivity|now constructor].
Qed.

Lemma coords_no_M (p : Point) :
  (forall v, count_char "M" (toString v) = 0%nat) ->
  count_char "M" (coords toString p) = 0%nat.
Proof.
  intros H. unfold coords. now rewrite !count_char_app, !H.
Qed.

Lemma segment_token_no_M (c : @Path V) (t : string) :
  (forall v, count_char "M" (toString v) = 0%nat) ->
  segment_token toString c t -> count_char "M" t = 0%nat.
Proof.
  intros H Ht. destruct Ht; rewrite !count_char_app, !coords_no_M by exact H;
    reflexivity.
Qed.

(** The segments Catmull-Rom fitting makes of two points or more all
    have two, three or four points. *)
Lemma performCatmullRom_simple points tension :
  (2 <= List.length points)%nat ->
  exists segs : SimplePathList,
    performCatmullRom points tension = Ok segs /\
    Forall (fun c => (2 <= List.length c <= 4)%nat) segs.
Proof.
  intros Hn.
  destruct (Nat.lt_ge_cases (List.length points) 4) as [Hlt|Hge].
  - exists [points]. split.
    + unfold performCatmullRom.
      destruct (Z.eqb_spec (len points) 0); [unfold len in *; lia|].
      destruct (Z.ltb_spec (len points) 4); [reflexivity|unfold len in *; lia].
    + constructor; [lia|constructor].
  - destruct (SplineFacts.performCatmullRom_cubics points tension Hge)
      as (segs & E & Hsegs).
    exists segs. split; [exact E|].
    eapply Forall_impl; [|exact Hsegs].
    intros c (a & b & c' & d & ->). simpl. lia.
Qed.

(** C2. Serializing a spline of two points or more succeeds.  The output
    is one move-to to the first point, written at the start, followed at
    once by the tokens of the segments, in order, with one space between
    a token and the next.  A token is a line-to, a quadratic-curve-to or
    a cubic-curve-to, never a move-to: the letter [M] occurs exactly once
    in the output as soon as no number prints with an [M]. *)
Theorem buildSplineDString_one_moveto points tension :
  (2 <= List.length points)%nat ->
  exists (p0 : Point) (segs : SimplePathList) (tokens : list string),
    nth_error points 0 = Some p0 /\
    performCatmullRom points tension = Ok segs /\
    Forall2 (segment_token toString) segs tokens /\
    buildSplineDString toString points tension =
      Ok ("M " ++ coords toString p0 ++ join " " tokens) /\
    ((forall v, count_char "M" (toString v) = 0%nat) ->
     count_char "M" ("M " ++ coords toString p0 ++ join " " tokens) = 1%nat).
Proof.
  intros Hn.
  destruct (performCatmullRom_simple points tension Hn) as (segs & E & Hsegs).
  destruct (tokens_exist segs Hsegs) as (tokens & Et & Hts).
  destruct points as [|p0 rest]; [simpl in Hn; lia|].
  exists p0, segs, tokens. repeat split; try assumption.
  - unfold buildSplineDString. rewrite E. simpl. rewrite Et. reflexivity.
  - intros H. rewrite !count_char_app, coords_no_M by exact H.
    rewrite count_char_join; [reflexivity|reflexivity|].
    clear - H Hts. induction Hts as [|c t segs tokens Ht _ IH]; constructor.
    + exact (segment_token_no_M c t H Ht).
    + exact IH.
Qed.

(** In the form with [primitive], every token is built with its own
    move-to: three points give ["M x0 y0 Q ..."], and a fit of four
    points or more repeats a move-to at each join. *)
Lemma buildSplineDString_by_primitive_three (p0 p1 p2 : Point) tension :
  SerializerByPrimitive.buildSplineDString toString [p0; p1; p2] "quadratic" tension =
  Ok ("M " ++ coords toString p0 ++ " Q " ++ coords toString p1
        ++ " " ++ coords toString p2).
Proof. reflexivity. Qed.

End WithArith.
End SerializerFacts.

(** ** The path interpreter *)

Module StateMachineFacts.
Import StateMachine.
Section WithArith.
Context {V : Type} {arith : JsArith V}.
Implicit Types (st : @State V) (a : list V).

Lemma processAll_app (l1 l2 : list (@SVGCommand V)) st :
  processAll (l1 ++ l2) st = (st' <- processAll l1 st ;; processAll l2 st').
Proof.
  revert st; induction l1 as [|c l1 IH]; intros st; simpl; [reflexivity|].
  destruct (processCommand c st) as [st'|e]; simpl; [apply IH|reflexivity].
Qed.

Lemma processAll_one (c : @SVGCommand V) st :
  processAll [c] st = processCommand c st.
Proof. simpl. destruct (processCommand c st); reflexivity. Qed.

(** What [A] does, whatever the state: the arc starts at the literal
    [[0, 0]] and the brush tip stays where it was. *)
Lemma processCommand_A st a :
  processCommand {| name := "A"; args := a |} st =
  Ok {| geometry := geometry st ++
          [EllipseArc (js_lit 0, js_lit 0)
             (nth 0 a js_undefined) (nth 1 a js_undefined) (nth 2 a js_undefined)
             (nth 3 a js_undefined) (nth 4 a js_undefined)
             (nth 5 a js_undefined, nth 6 a js_undefined)];
        brushTip := brushTip st |}.
Proof. reflexivity. Qed.

(** What [a] does once a tip is set: both ends are shifted by the tip,
    and the tip stays where it was. *)
Lemma processCommand_a st a (tip : Point) :
  brushTip st = Some tip ->
  processCommand {| name := "a"; args := a |} st =
  Ok {| geometry := geometry st ++
          [EllipseArc (PointMath.sum tip (js_lit 0, js_lit 0))
             (nth 0 a js_undefined) (nth 1 a js_undefined) (nth 2 a js_undefined)
             (nth 3 a js_undefined) (nth 4 a js_undefined)
             (PointMath.sum tip (nth 5 a js_undefined, nth 6 a js_undefined))];
        brushTip := Some tip |}.
Proof.
  intros Htip. unfold processCommand; simpl.
  unfold shiftPointIfNeeded, fromBrushTip; simpl. rewrite Htip. simpl.
  unfold push; simpl. now rewrite Htip.
Qed.

(** An absolute drawing command does not look at the brush tip. *)
Lemma processCommand_L st a :
  processCommand {| name := "L"; args := a |} st =
  Ok {| geometry := geometry st ++
          [Line (brushTip st) (nth 0 a js_undefined, nth 1 a js_undefined)];
        brushTip := Some (nth 0 a js_undefined, nth 1 a js_undefined) |}.
Proof. reflexivity. Qed.

(** C5, as the code has it.  [Z] and [z] never fail and never move the
    brush tip.  They append one line, from the brush tip to the start
    point [p1] of the first primitive of [geometry], when that list is
    not empty and its first primitive has a start point; in every other
    case (empty list, first primitive an arc, first primitive drawn
    without a tip) they leave [geometry] as it is. *)
Theorem close_path_step st (n : string) a :
  n = "Z"%string \/ n = "z"%string ->
  exists st',
    processCommand {| name := n; args := a |} st = Ok st' /\
    brushTip st' = brushTip st /\
    ((exists first rest start,
        geometry st = first :: rest /\ p1_of first = Some start /\
        geometry st' = geometry st ++ [Line (brushTip st) start])
     \/
     ((geometry st = [] \/
       exists first rest, geometry st = first :: rest /\ p1_of first = None) /\
      geometry st' = geometry st)).
Proof.
  intros Hn.
  assert (E : processCommand {| name := n; args := a |} st =
              match geometry st with
              | first :: _ =>
                  match p1_of first with
                  | Some start => Ok (push (Line (brushTip st) start) st)
                  | None => Ok st
                  end
              | [] => Ok st
              end)
    by (destruct Hn as [-> | ->]; reflexivity).
  rewrite E. clear E.
  destruct (geometry st) as [|first rest] eqn:Hg.
  - exists st. repeat split. right. split; [now left|assumption].
  - destruct (p1_of first) as [start|] eqn:Hp.
    + exists (push (Line (brushTip st) start) st). repeat split.
      left. exists first, rest, start. repeat split; [assumption|].
      unfold push; simpl. now rewrite Hg.
    + exists st. repeat split. right. split; [|assumption].
      right. now exists first, rest.
Qed.

End WithArith.
End StateMachineFacts.

Import StateMachine.

(** C3, at failing inputs.  In ["M 1 2 A 5 5 0 0 1 10 10 L 20 20"] the arc
    is processed with the brush tip at [(1, 2)]: its [absoluteStart] is
    [(0, 0)], not the tip, and the line that follows still starts at
    [(1, 2)], not at the target [(10, 10)] of the arc.  In the relative
    form ["M 1 2 a 5 5 0 0 1 10 10 L 20 20"] the arc starts at the tip and
    ends at [(11, 12)], and the line that follows starts at [(1, 2)] again.
    [absoluteEnd] and the two flags are the ones of the command. *)
Theorem arc_start_and_tip_at_failing_input :
  executeSVGStateMachine
    [cmd "M" [1; 2]; cmd "A" [5; 5; 0; 0; 1; 10; 10]; cmd "L" [20; 20]]%Z =
  Ok [EllipseArc (pt 0 0) (num_lit 5) (num_lit 5) (num_lit 0)
        (num_lit 0) (num_lit 1) (pt 10 10);
      Line (Some (pt 1 2)) (pt 20 20)] /\
  executeSVGStateMachine
    [cmd "M" [1; 2]; cmd "a" [5; 5; 0; 0; 1; 10; 10]; cmd "L" [20; 20]]%Z =
  Ok [EllipseArc (pt 1 2) (num_lit 5) (num_lit 5) (num_lit 0)
        (num_lit 0) (num_lit 1) (pt 11 12);
      Line (Some (pt 1 2)) (pt 20 20)].
Proof.
  split; [reflexivity|].
  computed.
Qed.

(** C4, at failing inputs.  ["L 5 5"] with no prior move-to raises
    nothing: it returns one line whose start is [null].  The relative form
    ["l 5 5"] raises "Brush tip not set", and ["H 5"] fails with a
    [TypeError] on the [null] tip. *)
Theorem line_before_move_at_failing_input :
  executeSVGStateMachine [cmd "L" [5; 5]%Z] = Ok [Line None (pt 5 5)] /\
  executeSVGStateMachine [cmd "l" [5; 5]%Z] = Throw (Error "Brush tip not set") /\
  executeSVGStateMachine [cmd "H" [5]%Z] = Throw TypeError.
Proof. repeat split. Qed.

(** C5 as stated fails twice.  After ["M 0 0 a 1 1 0 0 1 2 0"] a primitive
    has been emitted, yet [Z] appends nothing.  In
    ["M 0 0 M 5 5 L 6 6 Z"] the closing line ends at [(5, 5)], the start of
    the first primitive, not at the point [(0, 0)] of the first move-to. *)
Lemma close_path_counterexample :
  (exists st,
     processAll [cmd "M" [0; 0]; cmd "a" [1; 1; 0; 0; 1; 2; 0]]%Z initial = Ok st /\
     geometry st <> [] /\
     processCommand (cmd "Z" []) st = Ok st) /\
  executeSVGStateMachine
    [cmd "M" [0; 0]; cmd "M" [5; 5]; cmd "L" [6; 6]; cmd "Z" []]%Z =
  Ok [Line (Some (pt 5 5)) (pt 6 6); Line (Some (pt 6 6)) (pt 5 5)] /\
  pt 5 5 <> pt 0 0.
Proof.
  split; [|split].
  - eexists. split; [reflexivity|]. split; [discriminate|reflexivity].
  - reflexivity.
  - intros E. apply (f_equal fst) in E. apply (f_equal num_toString) in E.
    vm_compute in E. discriminate.
Qed.

(** The close-path scenario: ["M 0 0 L 10 0 L 10 10 Z"] yields three lines,
    the last one back to the start of the first. *)
Lemma close_path_scenario :
  ("Z" = "Z" \/ "Z" = "z")%string /\
  executeSVGStateMachine
    [cmd "M" [0; 0]; cmd "L" [10; 0]; cmd "L" [10; 10]; cmd "Z" []]%Z =
  Ok [Line (Some (pt 0 0)) (pt 10 0);
      Line (Some (pt 10 0)) (pt 10 10);
      Line (Some (pt 10 10)) (pt 0 0)].
Proof.
  split; [now left|].
  pose (st3 := {| geometry := [Line (Some (pt 0 0)) (pt 10 0);
                               Line (Some (pt 10 0)) (pt 10 10)];
                  brushTip := Some (pt 10 10) |}).
  assert (Hrun : processAll
                   [cmd "M" [0; 0]; cmd "L" [10; 0]; cmd "L" [10; 10]; cmd "Z" []]%Z
                   initial =
                 processCommand {| name := "Z"; args := map num_lit [] |} st3).
  { change [cmd "M" [0; 0]; cmd "L" [10; 0]; cmd "L" [10; 10]; cmd "Z" []]%Z
      with ([cmd "M" [0; 0]; cmd "L" [10; 0]; cmd "L" [10; 10]]
              ++ [{| name := "Z"%string; args := map num_lit [] |}])%Z.
    rewrite StateMachineFacts.processAll_app.
    change (processAll [cmd "M" [0; 0]; cmd "L" [10; 0]; cmd "L" [10; 10]]%Z initial)
      with (Ok st3).
    apply StateMachineFacts.processAll_one. }
  unfold executeSVGStateMachine. rewrite Hrun.
  destruct (StateMachineFacts.close_path_step st3 "Z" (map num_lit [])
              (or_introl eq_refl))
    as (st' & E & Htip & [(first & rest & start & Hg & Hp & Hg') | [Hnone _]]).
  - rewrite E. simpl. rewrite Hg'.
    injection Hg as <- <-. injection Hp as <-. reflexivity.
  - exfalso. destruct Hnone as [Hnil | (first & rest & Hg & Hp)].
    + discriminate Hnil.
    + injection Hg as <- <-. discriminate Hp.
Defined.

(** ** Bounding boxes *)

Module BoundingBoxFacts.
Import BoundingBox.

(** *** [Math.min] and [Math.max] on binary64 numbers *)

Lemma is_nan_spec (f : float) : PrimFloat.is_nan f = SFis_nan (Prim2SF f).
Proof.
  unfold PrimFloat.is_nan. rewrite FloatAxioms.eqb_spec.
  destruct (Prim2SF f) as [s|s| |s m e]; simpl; try reflexivity.
  - destruct s; reflexivity.
  - unfold SFeqb, SFcompare.
    destruct s; rewrite Z.compare_refl, Pos.compare_cont_refl; reflexivity.
Qed.

Lemma is_neg_zero_spec (f : float) : is_neg_zero f = SFis_neg_zero (Prim2SF f).
Proof.
  unfold is_neg_zero. rewrite classify_spec. unfold SF64classify, SFclassify.
  destruct (Prim2SF f) as [[|]|[|]| |[|] m e]; simpl; try reflexivity;
    match goal with |- context [if ?c then _ else _] => destruct c end;
    reflexivity.
Qed.

Lemma is_pos_zero_spec (f : float) : is_pos_zero f = SFis_pos_zero (Prim2SF f).
Proof.
  unfold is_pos_zero. rewrite classify_spec. unfold SF64classify, SFclassify.
  destruct (Prim2SF f) as [[|]|[|]| |[|] m e]; simpl; try reflexivity;
    match goal with |- context [if ?c then _ else _] => destruct c end;
    reflexivity.
Qed.

Ltac split_ifs :=
  repeat match goal with
         | |- context [if ?c then _ else _] => destruct c
         end.

Lemma float_min_spec (a b : float) :
  Prim2SF (float_min a b) = SFmin (Prim2SF a) (Prim2SF b).
Proof.
  unfold float_min, SFmin.
  rewrite !is_nan_spec, FloatAxioms.ltb_spec, is_neg_zero_spec, is_pos_zero_spec.
  split_ifs; reflexivity.
Qed.

Lemma float_max_spec (a b : float) :
  Prim2SF (float_max a b) = SFmax (Prim2SF a) (Prim2SF b).
Proof.
  unfold float_max, SFmax.
  rewrite !is_nan_spec, FloatAxioms.ltb_spec, is_neg_zero_spec, is_pos_zero_spec.
  split_ifs; reflexivity.
Qed.

(** Splits the comparisons of exponents and mantissas. *)
Ltac compare_cases :=
  repeat match goal with
         | |- context [Z.compare ?a ?b] => destruct (Z.compare_spec a b); subst
         | |- context [Pos.compare_cont Eq ?a ?b] =>
             change (Pos.compare_cont Eq a b) with (Pos.compare a b)
         | |- context [Pos.compare ?a ?b] => destruct (Pos.compare_spec a b); subst
         end.

Ltac by_key :=
  first [ left; split; [simpl; lia | reflexivity]
        | right; split; [simpl; lia | reflexivity] ].

(** [Math.min] returns the argument with the smaller key, [Math.max] the
    one with the larger key. *)
Lemma SFmin_key (x y : spec_float) :
  SFis_nan x = false -> SFis_nan y = false ->
  (key_lt (key y) (key x) /\ SFmin x y = y) \/
  (key_le (key x) (key y) /\ SFmin x y = x).
Proof.
  destruct x as [[|]|[|]| |[|] m1 e1], y as [[|]|[|]| |[|] m2 e2];
    try discriminate; intros _ _;
    unfold SFmin, SFltb, SFcompare; simpl; compare_cases; by_key.
Qed.

Lemma SFmax_key (x y : spec_float) :
  SFis_nan x = false -> SFis_nan y = false ->
  (key_lt (key x) (key y) /\ SFmax x y = y) \/
  (key_le (key y) (key x) /\ SFmax x y = x).
Proof.
  destruct x as [[|]|[|]| |[|] m1 e1], y as [[|]|[|]| |[|] m2 e2];
    try discriminate; intros _ _;
    unfold SFmax, SFltb, SFcompare; simpl; compare_cases; by_key.
Qed.

Lemma key_injective (x y : spec_float) : key x = key y -> x = y.
Proof.
  destruct x as [[|]|[|]| |[|] m1 e1], y as [[|]|[|]| |[|] m2 e2];
    simpl; intros E; try discriminate E; try reflexivity;
    injection E as E1 E2; f_equal; lia.
Qed.

Lemma nan_or_not (x : spec_float) : x = S754_nan \/ SFis_nan x = false.
Proof. destruct x; auto. Qed.

Lemma SFmin_nan_l (y : spec_float) : SFmin S754_nan y = S754_nan.
Proof. reflexivity. Qed.

Lemma SFmin_nan_r (x : spec_float) : SFmin x S754_nan = S754_nan.
Proof. unfold SFmin. now rewrite orb_true_r. Qed.

Lemma SFmax_nan_l (y : spec_float) : SFmax S754_nan y = S754_nan.
Proof. reflexivity. Qed.

Lemma SFmax_nan_r (x : spec_float) : SFmax x S754_nan = S754_nan.
Proof. unfold SFmax. now rewrite orb_true_r. Qed.

Lemma SFmin_not_nan (x y : spec_float) :
  SFis_nan x = false -> SFis_nan y = false -> SFis_nan (SFmin x y) = false.
Proof.
  intros Hx Hy. destruct (SFmin_key x y Hx Hy) as [[_ ->] | [_ ->]]; assumption.
Qed.

Lemma SFmax_not_nan (x y : spec_float) :
  SFis_nan x = false -> SFis_nan y = false -> SFis_nan (SFmax x y) = false.
Proof.
  intros Hx Hy. destruct (SFmax_key x y Hx Hy) as [[_ ->] | [_ ->]]; assumption.
Qed.

(** Decides a goal on keys by linear arithmetic on their components. *)
Ltac key_order :=
  unfold key_le, key_lt in *;
  repeat match goal with
         | H : context [key ?x] |- _ =>
             let a := fresh "a" in let b := fresh "b" in let c := fresh "c" in
             destruct (key x) as [[a b] c]
         | |- context [key ?x] =>
             let a := fresh "a" in let b := fresh "b" in let c := fresh "c" in
             destruct (key x) as [[a b] c]
         end;
  lia.

Lemma key_le_antisym (x y : spec_float) :
  key_le (key x) (key y) -> key_le (key y) (key x) -> x = y.
Proof.
  intros H1 H2. apply key_injective.
  unfold key_le in *. destruct (key x) as [[a b] c], (key y) as [[a' b'] c'].
  repeat f_equal; lia.
Qed.

Lemma SFmin_comm (x y : spec_float) : SFmin x y = SFmin y x.
Proof.
  destruct (nan_or_not x) as [-> | Hx]; [now rewrite SFmin_nan_r|].
  destruct (nan_or_not y) as [-> | Hy]; [now rewrite SFmin_nan_r|].
  destruct (SFmin_key x y Hx Hy) as [[H1 ->] | [H1 ->]],
           (SFmin_key y x Hy Hx) as [[H2 ->] | [H2 ->]];
    try reflexivity; try (exfalso; key_order).
  now apply key_le_antisym.
Qed.

Lemma SFmax_comm (x y : spec_float) : SFmax x y = SFmax y x.
Proof.
  destruct (nan_or_not x) as [-> | Hx]; [now rewrite SFmax_nan_r|].
  destruct (nan_or_not y) as [-> | Hy]; [now rewrite SFmax_nan_r|].
  destruct (SFmax_key x y Hx Hy) as [[H1 ->] | [H1 ->]],
           (SFmax_key y x Hy Hx) as [[H2 ->] | [H2 ->]];
    try reflexivity; try (exfalso; key_order).
  now apply key_le_antisym.
Qed.

Lemma SFmin_assoc (x y z : spec_float) :
  SFmin (SFmin x y) z = SFmin x (SFmin y z).
Proof.
  destruct (nan_or_not x) as [-> | Hx]; [reflexivity|].
  destruct (nan_or_not y) as [-> | Hy];
    [now rewrite SFmin_nan_r, !SFmin_nan_l, SFmin_nan_r|].
  destruct (nan_or_not z) as [-> | Hz]; [now rewrite !SFmin_nan_r|].
  destruct (SFmin_key x y Hx Hy) as [[H1 E1] | [H1 E1]],
           (SFmin_key y z Hy Hz) as [[H2 E2] | [H2 E2]];
    rewrite E1, E2; try rewrite E1; try rewrite E2; try reflexivity.
  - destruct (SFmin_key x z Hx Hz) as [[H3 ->] | [H3 ->]];
      [reflexivity | exfalso; key_order].
  - destruct (SFmin_key x z Hx Hz) as [[H3 ->] | [H3 ->]];
      destruct (SFmin_key y z Hy Hz) as [[H4 E4] | [H4 E4]];
      try (exfalso; key_order); congruence.
Qed.

Lemma SFmax_assoc (x y z : spec_float) :
  SFmax (SFmax x y) z = SFmax x (SFmax y z).
Proof.
  destruct (nan_or_not x) as [-> | Hx]; [reflexivity|].
  destruct (nan_or_not y) as [-> | Hy];
    [now rewrite SFmax_nan_r, !SFmax_nan_l, SFmax_nan_r|].
  destruct (nan_or_not z) as [-> | Hz]; [now rewrite !SFmax_nan_r|].
  destruct (SFmax_key x y Hx Hy) as [[H1 E1] | [H1 E1]],
           (SFmax_key y z Hy Hz) as [[H2 E2] | [H2 E2]];
    rewrite E1, E2; try rewrite E1; try rewrite E2; try reflexivity.
  - destruct (SFmax_key x z Hx Hz) as [[H3 ->] | [H3 ->]];
      destruct (SFmax_key y z Hy Hz) as [[H4 E4] | [H4 E4]];
      try (exfalso; key_order); congruence.
  - destruct (SFmax_key x z Hx Hz) as [[H3 ->] | [H3 ->]];
      [exfalso; key_order | reflexivity].
Qed.

Lemma float_min_comm (a b : float) : float_min a b = float_min b a.
Proof. apply Prim2SF_inj. rewrite !float_min_spec. apply SFmin_comm. Qed.

Lemma float_max_comm (a b : float) : float_max a b = float_max b a.
Proof. apply Prim2SF_inj. rewrite !float_max_spec. apply SFmax_comm. Qed.

Lemma float_min_assoc (a b c : float) :
  float_min (float_min a b) c = float_min a (float_min b c).
Proof. apply Prim2SF_inj. rewrite !float_min_spec. apply SFmin_assoc. Qed.

Lemma float_max_assoc (a b c : float) :
  float_max (float_max a b) c = float_max a (float_max b c).
Proof. apply Prim2SF_inj. rewrite !float_max_spec. apply SFmax_assoc. Qed.

(** [Infinity] is neutral for [Math.min], [-Infinity] for [Math.max]. *)
Lemma float_min_infinity (f : float) : float_min infinity f = f.
Proof.
  apply Prim2SF_inj. rewrite float_min_spec.
  change (Prim2SF infinity) with (S754_infinity false).
  destruct (Prim2SF f) as [[|]|[|]| |[|] m e]; reflexivity.
Qed.

Lemma float_min_infinity_r (f : float) : float_min f infinity = f.
Proof. rewrite float_min_comm. apply float_min_infinity. Qed.

Lemma float_max_neg_infinity (f : float) : float_max neg_infinity f = f.
Proof.
  apply Prim2SF_inj. rewrite float_max_spec.
  change (Prim2SF neg_infinity) with (S754_infinity true).
  destruct (Prim2SF f) as [[|]|[|]| |[|] m e]; reflexivity.
Qed.

Lemma Math_min_comm (a b : jsnum) : Math_min a b = Math_min b a.
Proof. unfold Math_min. now rewrite float_min_comm. Qed.

Lemma Math_max_comm (a b : jsnum) : Math_max a b = Math_max b a.
Proof. unfold Math_max. now rewrite float_max_comm. Qed.

Lemma Math_min_assoc (a b c : jsnum) :
  Math_min (Math_min a b) c = Math_min a (Math_min b c).
Proof. unfold Math_min. simpl. now rewrite float_min_assoc. Qed.

Lemma Math_max_assoc (a b c : jsnum) :
  Math_max (Math_max a b) c = Math_max a (Math_max b c).
Proof. unfold Math_max. simpl. now rewrite float_max_assoc. Qed.

Lemma Math_min_PosInf (v : jsnum) : Math_min PosInf v = Num (toNumber v).
Proof. unfold Math_min. simpl. now rewrite float_min_infinity. Qed.

Lemma Math_max_NegInf (v : jsnum) : Math_max NegInf v = Num (toNumber v).
Proof. unfold Math_max. simpl. now rewrite float_max_neg_infinity. Qed.

(** The order in which two values are taken in does not matter. *)
Lemma Math_min_swap (m a b : jsnum) :
  Math_min (Math_min m a) b = Math_min (Math_min m b) a.
Proof. now rewrite !Math_min_assoc, (Math_min_comm a b). Qed.

Lemma Math_max_swap (m a b : jsnum) :
  Math_max (Math_max m a) b = Math_max (Math_max m b) a.
Proof. now rewrite !Math_max_assoc, (Math_max_comm a b). Qed.

(** A finite value is a number. *)
Lemma finite_number (v : jsnum) : finite v -> Num (toNumber v) = v.
Proof. destruct v as [|f]; [discriminate|reflexivity]. Qed.

(** *** The loop of [combineBoundingBoxes] *)

Lemma fold_absorb_present (entries : list (option Box)) :
  forall e, fold_left absorb (map entry entries) e =
            fold_left absorb (map Obj (present entries)) e.
Proof.
  induction entries as [|[b|] entries IH]; intros e; simpl.
  - reflexivity.
  - apply IH.
  - apply IH.
Qed.

Lemma fold_absorb_components (bs : list Box) :
  forall e,
    let e' := fold_left absorb (map Obj bs) e in
    minX e' = fold_left Math_min (map x bs) (minX e) /\
    minY e' = fold_left Math_min (map y bs) (minY e) /\
    maxX e' = fold_left Math_max (map right_edge bs) (maxX e) /\
    maxY e' = fold_left Math_max (map bottom_edge bs) (maxY e).
Proof.
  induction bs as [|b bs IH]; intros e; simpl.
  - repeat split.
  - apply (IH (absorb e (Obj b))).
Qed.

Lemma combineBoundingBoxes_variadic (entries : list (option Box)) :
  entries <> [] ->
  combineBoundingBoxes (map entry entries) =
  Some (extent_box (fold_left absorb (map entry entries) empty_extent)).
Proof.
  destruct entries as [|[b|] entries]; [congruence| |]; reflexivity.
Qed.

Lemma combineBoundingBoxes_array (elements : list Value) :
  combineBoundingBoxes [Arr elements] =
  Some (extent_box (fold_left absorb elements empty_extent)).
Proof. reflexivity. Qed.

Lemma present_finite (entries : list (option Box)) :
  Forall finite_entry entries -> Forall finite_box (present entries).
Proof.
  induction 1 as [|[b|] entries Hb _ IH]; simpl; [constructor| |exact IH].
  constructor; [exact Hb|exact IH].
Qed.

(** C10. The variadic form and the array form agree on every non-empty
    list of entries, each a box or [null]. *)
Theorem call_forms_agree (entries : list (option Box)) :
  entries <> [] ->
  combineBoundingBoxes [Arr (map entry entries)] =
  combineBoundingBoxes (map entry entries).
Proof.
  intros Hne. rewrite combineBoundingBoxes_array.
  symmetry. now apply combineBoundingBoxes_variadic.
Qed.

(** *** Combining two boxes *)

(** Two items can be taken in in either order. *)
Lemma absorb_swap (e : Extent) (u v : Value) :
  absorb (absorb e u) v = absorb (absorb e v) u.
Proof.
  unfold absorb. destruct (truthy u), (truthy v); try reflexivity.
  cbn [minX minY maxX maxY]. f_equal;
    apply Math_min_swap || apply Math_max_swap.
Qed.

Lemma combine_unfold (a b : option Box) :
  combine a b =
  Some (extent_box (absorb (absorb empty_extent (entry a)) (entry b))).
Proof. destruct a, b; reflexivity. Qed.

Lemma combine_comm (a b : option Box) : combine a b = combine b a.
Proof. now rewrite !combine_unfold, absorb_swap. Qed.

(** Unfolds a combination of boxes down to [Math.min], [Math.max] and the
    arithmetic. *)
Ltac unfold_combine :=
  cbv [combine combineBoundingBoxes entry fold_left absorb truthy field
       extent_box empty_extent minX minY maxX maxY x y width height
       option_map right_edge bottom_edge].

Lemma combine_null_r (a : Box) :
  finite_box a ->
  combine (Some a) None =
  Some {| x := x a; y := y a;
          width := num_sub (right_edge a) (x a);
          height := num_sub (bottom_edge a) (y a) |}.
Proof.
  destruct a as [ax ay aw ah]. intros (Hx & Hy & _ & _). simpl in Hx, Hy.
  unfold_combine. rewrite !Math_min_PosInf, !Math_max_NegInf.
  now rewrite (finite_number _ Hx), (finite_number _ Hy).
Qed.

Lemma combine_corner_assoc (a b c : option Box) :
  option_map x (combine (combine a b) c) =
  option_map x (combine a (combine b c)) /\
  option_map y (combine (combine a b) c) =
  option_map y (combine a (combine b c)).
Proof.
  destruct a as [[ax ay aw ah]|], b as [[bx by_ bw bh]|], c as [[cx cy cw ch]|];
    unfold_combine; unfold Math_min, PosInf; cbn [toNumber];
    repeat first [ rewrite float_min_infinity | rewrite float_min_infinity_r
                 | rewrite float_min_assoc ];
    split; reflexivity.
Qed.

(** C7, as the code has it.  For [a], [b] and [c], each [null] or a box
    with finite coordinates: [combine] is commutative; [combine(a, null)],
    for a box [a], has the [x] and [y] of [a], and as [width] and [height]
    the differences [(a.x + a.width) - a.x] and [(a.y + a.height) - a.y]
    as floating-point arithmetic gives them; [combine(combine(a, b), c)]
    and [combine(a, combine(b, c))] have the same [x] and [y] when [b] is
    a box or when both [a] and [c] are boxes. *)
Theorem combine_laws (a b c : option Box) :
  finite_entry a -> finite_entry b -> finite_entry c ->
  combine a b = combine b a /\
  (forall box_a, a = Some box_a ->
     combine a None =
     Some {| x := x box_a; y := y box_a;
             width := num_sub (right_edge box_a) (x box_a);
             height := num_sub (bottom_edge box_a) (y box_a) |}) /\
  (b <> None \/ (a <> None /\ c <> None) ->
   option_map x (combine (combine a b) c) =
   option_map x (combine a (combine b c)) /\
   option_map y (combine (combine a b) c) =
   option_map y (combine a (combine b c))).
Proof.
  intros Ha Hb Hc. split; [apply combine_comm|]. split.
  - intros box_a ->. now apply combine_null_r.
  - intros _. apply combine_corner_assoc.
Qed.

End BoundingBoxFacts.

(** ** Scenarios and instances *)

(** *** Spline fitting *)

Example performCatmullRom_square_value :
  Spline.performCatmullRom square (num_lit 1) =
  Ok [[pt 0 0;   (frac 5 3, frac 0 1);   (frac 25 3, frac (-5) 3); pt 10 0];
      [pt 10 0;  (frac 35 3, frac 5 3);  (frac 35 3, frac 25 3);   pt 10 10];
      [pt 10 10; (frac 25 3, frac 35 3); (frac 5 3, frac 10 1);    pt 0 10]].
Proof. computed. Qed.

Example performCanonicalSpline_five_points_value :
  Spline.performCanonicalSpline five_points (num_lit 1) =
  Ok [[pt 10 0;  (frac 35 3, frac 5 3);  (frac 35 3, frac 25 3); pt 10 10];
      [pt 10 10; (frac 25 3, frac 35 3); (frac 5 2, frac 65 6);  pt 0 10]].
Proof. computed. Qed.

(** The fitting scenario of C1: the square at tension [1.0] yields three
    cubic segments, from [[0,0]] to [[10,0]], from [[10,0]] to [[10,10]] and
    from [[10,10]] to [[0,10]]. *)
Lemma performCatmullRom_square :
  (4 <= List.length square)%nat /\
  exists c1 c2 c3 c4 c5 c6,
    Spline.performCatmullRom square (num_lit 1) =
    Ok [[pt 0 0; c1; c2; pt 10 0];
        [pt 10 0; c3; c4; pt 10 10];
        [pt 10 10; c5; c6; pt 0 10]].
Proof.
  assert (H : (4 <= List.length square)%nat) by (simpl; lia).
  split; [exact H|].
  destruct (SplineFacts.performCatmullRom_interpolates square (num_lit 1) H)
    as (segs & E & Hlen & Hseg).
  destruct (Hseg 0%nat) as (p0 & q0 & c1 & c2 & Hp0 & Hq0 & H0); [simpl; lia|].
  destruct (Hseg 1%nat) as (p1 & q1 & c3 & c4 & Hp1 & Hq1 & H1); [simpl; lia|].
  destruct (Hseg 2%nat) as (p2 & q2 & c5 & c6 & Hp2 & Hq2 & H2); [simpl; lia|].
  simpl in Hp0, Hq0, Hp1, Hq1, Hp2, Hq2.
  injection Hp0 as <-. injection Hq0 as <-.
  injection Hp1 as <-. injection Hq1 as <-.
  injection Hp2 as <-. injection Hq2 as <-.
  exists c1, c2, c3, c4, c5, c6. rewrite E.
  destruct segs as [|s0 [|s1 [|s2 [|s3 segs]]]]; simpl in Hlen; try discriminate.
  simpl in H0, H1, H2.
  injection H0 as ->. injection H1 as ->. injection H2 as ->.
  reflexivity.
Defined.

(** Distinct integer coordinates print differently. *)
Ltac pt_distinct H :=
  apply (f_equal (fun p => (num_toString (fst p), num_toString (snd p)))) in H;
  vm_compute in H; discriminate H.

Lemma five_points_NoDup : NoDup five_points.
Proof.
  unfold five_points.
  repeat (constructor;
          [simpl; intros H;
           repeat (destruct H as [H|H]; [pt_distinct H|]);
           exact H|]).
  constructor.
Qed.

(** Five distinct points give two segments, none of which starts or ends
    at the first or the last point. *)
Lemma performCanonicalSpline_five_points :
  (5 <= List.length five_points)%nat /\
  NoDup five_points /\
  exists segs : Spline.SimplePathList,
    Spline.performCanonicalSpline five_points (num_lit 1) = Ok segs /\
    List.length segs = 2%nat /\
    forall seg e, In seg segs ->
      nth_error seg 0 = Some e \/ nth_error seg 3 = Some e ->
      e <> pt 0 0 /\ e <> pt (-5) 5.
Proof.
  assert (H : (5 <= List.length five_points)%nat) by (simpl; lia).
  split; [exact H|]. split; [exact five_points_NoDup|].
  destruct (SplineFacts.performCanonicalSpline_segments five_points (num_lit 1) H)
    as (segs & E & Hlen & _ & Hends).
  exists segs. split; [exact E|]. split; [exact Hlen|].
  intros seg e Hin He.
  destruct (Hends five_points_NoDup seg e Hin He) as [Hfirst Hlast].
  split; intros ->; [apply Hfirst|apply Hlast]; reflexivity.
Defined.

Lemma short_input_three_points :
  three_points <> [] /\
  Spline.performCatmullRom three_points (num_lit 1) = Ok [three_points] /\
  Spline.performCanonicalSpline three_points (num_lit 1) = Ok [three_points].
Proof.
  assert (H : three_points <> []) by discriminate.
  split; [exact H|].
  destruct (SplineFacts.short_input_returned_unchanged three_points (num_lit 1) H)
    as [H4 H5].
  split; [apply H4|apply H5]; simpl; lia.
Defined.

(** *** Serialization *)

Example buildSplineDString_three_points :
  Serializer.buildSplineDString num_toString three_points (num_lit 1) =
  Ok "M 0 0Q 10 0 10 10"%string.
Proof. computed. Qed.

(** Three cubic segments: one move-to, then the three tokens. *)
Example buildSplineDString_square6 :
  Serializer.buildSplineDString num_toString square6 (num_lit 1) =
  Ok "M 0 0C 1 0 5 -1 6 0 C 7 1 7 5 6 6 C 5 7 1 6 0 6"%string.
Proof. computed. Qed.

(** C2 as stated fails on the form with [primitive]: each of the three
    segments of the square is written with a move-to of its own, so a
    move-to stands at both joins.  It also fails on a single point, in
    either form: the point is its own segment, which the serializer
    refuses. *)
Lemma moveto_at_every_join_counterexample :
  SerializerByPrimitive.buildSplineDString num_toString square6 "quadratic"
    (num_lit 1) =
  Ok "M 0 0 C 1 0 5 -1 6 0 M 6 0 C 7 1 7 5 6 6 M 6 6 C 5 7 1 6 0 6"%string /\
  count_char "M" "M 0 0 C 1 0 5 -1 6 0 M 6 0 C 7 1 7 5 6 6 M 6 6 C 5 7 1 6 0 6"
  <> 1%nat /\
  Serializer.buildSplineDString num_toString [pt 0 0] (num_lit 1) =
  Throw (Error "# Points must be 2, 3, or 4. Note that <svg> does not support drawing a single point. Use a <circle> instead.").
Proof. split; [computed|split; [discriminate|reflexivity]]. Qed.

Lemma buildSplineDString_one_moveto_square :
  (2 <= List.length square6)%nat /\
  (forall v, count_char "M" (num_toString v) = 0%nat) /\
  exists tokens : list string,
    List.length tokens = 3%nat /\
    Serializer.buildSplineDString num_toString square6 (num_lit 1) =
      Ok ("M " ++ Serializer.coords num_toString (pt 0 0) ++ join " " tokens)%string /\
    count_char "M"
      ("M " ++ Serializer.coords num_toString (pt 0 0) ++ join " " tokens)%string
    = 1%nat.
Proof.
  assert (H : (2 <= List.length square6)%nat) by (simpl; lia).
  split; [exact H|]. split; [exact num_toString_no_M|].
  destruct (SerializerFacts.buildSplineDString_one_moveto num_toString
              square6 (num_lit 1) H)
    as (p0 & segs & tokens & Hp0 & Hfit & Htokens & E & Hcount).
  injection Hp0 as <-.
  exists tokens. split; [|split; [exact E|exact (Hcount num_toString_no_M)]].
  rewrite <- (Forall2_length Htokens).
  vm_compute in Hfit. injection Hfit as <-. reflexivity.
Defined.

(** *** Bounding boxes *)

Import BoundingBox.

(** [combine([{x:0,y:0,width:10,height:5}, null, {x:5,y:-5,width:10,height:10}])]
    is [{x:0,y:-5,width:15,height:10}]: the greatest bottom edge is
    [max(0+5, -5+10) = 5], hence the height [5 - (-5) = 10]. *)
Example combineBoundingBoxes_scenario_value :
  combineBoundingBoxes (map entry scenario_entries) = Some (box 0 (-5) 15 10) /\
  combineBoundingBoxes [Arr (map entry scenario_entries)] = Some (box 0 (-5) 15 10).
Proof. split; computed. Qed.

Lemma scenario_entries_finite : Forall finite_entry scenario_entries.
Proof. repeat constructor. Defined.

(** C6 at the failing input: with every entry absent the result is a box
    of infinities, not [null], in both call forms and for the empty array
    as well; only the call without argument returns [null]. *)
Lemma all_absent_at_failing_input :
  combineBoundingBoxes [Null; Null] = Some unbounded_box /\
  combineBoundingBoxes [Arr [Null; Null]] = Some unbounded_box /\
  combineBoundingBoxes [Arr []] = Some unbounded_box /\
  combineBoundingBoxes [] = None.
Proof. repeat split. Qed.

(** C7 as stated fails on boxes with finite coordinates.  The box
    [{x: 0.1, y: 0, width: 0.2, height: 0}] combined with [null] comes
    back with the width [(0.1 + 0.2) - 0.1], which is not [0.2]; and three
    boxes of width [0.1] at [x = 0.1], [0.2] and [0.7] combine to
    different widths in one grouping and in the other. *)
Lemma combine_counterexample :
  combine (Some (tenths 1 0 2 0)) None <> Some (tenths 1 0 2 0) /\
  combine (combine (Some (tenths 1 0 1 0)) (Some (tenths 2 0 1 0)))
          (Some (tenths 7 0 1 0)) <>
  combine (Some (tenths 1 0 1 0))
          (combine (Some (tenths 2 0 1 0)) (Some (tenths 7 0 1 0))).
Proof.
  split; intros E;
    apply (f_equal (option_map (fun b => num_toString (width b)))) in E;
    vm_compute in E; discriminate E.
Qed.

Lemma combine_laws_instance :
  finite_entry (Some (box 0 0 10 5)) /\
  finite_entry (Some (box 5 (-5) 10 10)) /\
  finite_entry None /\
  combine (Some (box 0 0 10 5)) (Some (box 5 (-5) 10 10)) =
  combine (Some (box 5 (-5) 10 10)) (Some (box 0 0 10 5)) /\
  combine (Some (box 0 0 10 5)) None =
    Some {| x := num_lit 0; y := num_lit 0;
            width := num_sub (num_add (num_lit 0) (num_lit 10)) (num_lit 0);
            height := num_sub (num_add (num_lit 0) (num_lit 5)) (num_lit 0) |} /\
  option_map x (combine (combine (Some (box 0 0 10 5)) (Some (box 5 (-5) 10 10))) None) =
  option_map x (combine (Some (box 0 0 10 5)) (combine (Some (box 5 (-5) 10 10)) None)) /\
  option_map y (combine (combine (Some (box 0 0 10 5)) (Some (box 5 (-5) 10 10))) None) =
  option_map y (combine (Some (box 0 0 10 5)) (combine (Some (box 5 (-5) 10 10)) None)).
Proof.
  assert (Ha : finite_entry (Some (box 0 0 10 5))) by (repeat split).
  assert (Hb : finite_entry (Some (box 5 (-5) 10 10))) by (repeat split).
  assert (Hc : finite_entry None) by exact I.
  split; [exact Ha|]. split; [exact Hb|]. split; [exact Hc|].
  destruct (BoundingBoxFacts.combine_laws _ _ _ Ha Hb Hc) as (Hcomm & Hid & Hassoc).
  split; [exact Hcomm|]. split.
  - exact (Hid _ eq_refl).
  - apply Hassoc. left. discriminate.
Defined.

Lemma call_forms_agree_scenario :
  scenario_entries <> [] /\
  combineBoundingBoxes [Arr (map entry scenario_entries)] =
  combineBoundingBoxes (map entry scenario_entries).
Proof.
  assert (H : scenario_entries <> []) by discriminate.
  split; [exact H|exact (BoundingBoxFacts.call_forms_agree scenario_entries H)].
Defined.

(* ================================================================== *)
(** * Part III: further properties of the code *)
(* ================================================================== *)

(** ** Spline fitting, for every arithmetic *)

Module SplineMore.
Import Spline.
Section WithArith.
Context {V : Type} {arith : JsArith V}.
Implicit Types (points : @Path V) (tension : V).

(** The segments of a Catmull-Rom fit, one loop iteration each. *)
Lemma performCatmullRom_nth points tension :
  (4 <= List.length points)%nat ->
  exists segs : SimplePathList,
    performCatmullRom points tension = Ok segs /\
    List.length segs = (List.length points - 1)%nat /\
    forall i, (i < List.length points - 1)%nat ->
      exists seg, nth_error segs i = Some seg /\
                  catmullRomSegment points tension (Z.of_nat i) = Ok seg.
Proof.
  intros Hn. unfold performCatmullRom.
  destruct (Z.eqb_spec (len points) 0); [unfold len in *; lia|].
  destruct (Z.ltb_spec (len points) 4); [unfold len in *; lia|].
  destruct (mapM_total (catmullRomSegment points tension)
              (range 0 (len points - 1))) as [segs Hsegs].
  { intros i Hi. apply range_In in Hi. unfold len in Hi.
    destruct (SplineFacts.nth_error_in_range points (Z.to_nat i)) as [p Hp]; [lia|].
    destruct (SplineFacts.nth_error_in_range points (S (Z.to_nat i))) as [q Hq]; [lia|].
    destruct (SplineFacts.catmullRomSegment_ok points tension _ p q Hp Hq)
      as (cp1 & cp2 & E).
    rewrite Z2Nat.id in E by lia. eauto. }
  exists segs. split; [exact Hsegs|].
  apply mapM_Forall2 in Hsegs.
  split.
  - rewrite <- (Forall2_length Hsegs), range_length. unfold len. lia.
  - intros i Hi.
    assert (Hi' : nth_error (range 0 (len points - 1)) i = Some (Z.of_nat i)).
    { rewrite range_nth_error by (unfold len; lia). f_equal; lia. }
    exact (Forall2_nth_error_l _ _ _ i (Z.of_nat i) Hsegs Hi').
Qed.

(** The segments of a Canonical-Spline fit, one loop iteration each. *)
Lemma performCanonicalSpline_nth points tension :
  (5 <= List.length points)%nat ->
  exists segs : SimplePathList,
    performCanonicalSpline points tension = Ok segs /\
    List.length segs = (List.length points - 3)%nat /\
    forall k, (k < List.length points - 3)%nat ->
      exists seg, nth_error segs k = Some seg /\
                  canonicalSplineSegment points tension (Z.of_nat (k + 1)) = Ok seg.
Proof.
  intros Hn. unfold performCanonicalSpline.
  destruct (Z.eqb_spec (len points) 0); [unfold len in *; lia|].
  destruct (Z.ltb_spec (len points) 5); [unfold len in *; lia|].
  destruct (mapM_total (canonicalSplineSegment points tension)
              (range 1 (len points - 2))) as [segs Hsegs].
  { intros i Hi. apply range_In in Hi. unfold len in Hi.
    destruct (SplineFacts.nth_error_in_range points (Z.to_nat i - 1)) as [p0 H0]; [lia|].
    destruct (SplineFacts.nth_error_in_range points (Z.to_nat i - 1 + 1)) as [p1 H1]; [lia|].
    destruct (SplineFacts.nth_error_in_range points (Z.to_nat i - 1 + 2)) as [p2 H2]; [lia|].
    destruct (SplineFacts.nth_error_in_range points (Z.to_nat i - 1 + 3)) as [p3 H3]; [lia|].
    pose proof (SplineFacts.canonicalSplineSegment_ok points tension _ p0 p1 p2 p3
                  H0 H1 H2 H3) as E.
    replace (Z.of_nat (Z.to_nat i - 1 + 1)) with i in E by lia. eauto. }
  exists segs. split; [exact Hsegs|].
  apply mapM_Forall2 in Hsegs.
  split.
  - rewrite <- (Forall2_length Hsegs), range_length. unfold len. lia.
  - intros k Hk.
    assert (Hk' : nth_error (range 1 (len points - 2)) k = Some (Z.of_nat (k + 1))).
    { rewrite range_nth_error by (unfold len; lia). f_equal; lia. }
    exact (Forall2_nth_error_l _ _ _ k (Z.of_nat (k + 1)) Hsegs Hk').
Qed.

(** X1. Both fitters throw "At least 1 point required" on the empty list
    and succeed, with at least one segment, on every other input. *)
Theorem fit_fails_only_on_empty points tension :
  (points = [] /\
   performCatmullRom points tension = Throw (Error "At least 1 point required") /\
   performCanonicalSpline points tension = Throw (Error "At least 1 point required"))
  \/
  (points <> [] /\
   (exists segs, performCatmullRom points tension = Ok segs /\ segs <> []) /\
   (exists segs, performCanonicalSpline points tension = Ok segs /\ segs <> [])).
Proof.
  destruct points as [|p0 rest]; [left; repeat split|right].
  split; [discriminate|].
  assert (Hpos : (0 < List.length (p0 :: rest))%nat) by (simpl; lia).
  remember (p0 :: rest) as points eqn:Epoints. clear Epoints.
  split.
  - destruct (Nat.lt_ge_cases (List.length points) 4) as [Hlt|Hge].
    + exists [points]. split; [|discriminate]. unfold performCatmullRom.
      destruct (Z.eqb_spec (len points) 0); [unfold len in *; lia|].
      destruct (Z.ltb_spec (len points) 4); [reflexivity|unfold len in *; lia].
    + destruct (performCatmullRom_nth points tension Hge) as (segs & E & Hlen & _).
      exists segs. split; [exact E|]. intros ->. simpl in Hlen. lia.
  - destruct (Nat.lt_ge_cases (List.length points) 5) as [Hlt|Hge].
    + exists [points]. split; [|discriminate]. unfold performCanonicalSpline.
      destruct (Z.eqb_spec (len points) 0); [unfold len in *; lia|].
      destruct (Z.ltb_spec (len points) 5); [reflexivity|unfold len in *; lia].
    + destruct (performCanonicalSpline_nth points tension Hge) as (segs & E & Hlen & _).
      exists segs. split; [exact E|]. intros ->. simpl in Hlen. lia.
Qed.

End WithArith.
End SplineMore.

(** ** Serialization *)

Lemma string_app_assoc (s1 s2 s3 : string) :
  ((s1 ++ s2) ++ s3 = s1 ++ (s2 ++ s3))%string.
Proof. induction s1 as [|c s1 IH]; simpl; [reflexivity|now rewrite IH]. Qed.

Lemma join_cons (sep s : string) (l : list string) :
  l <> [] -> join sep (s :: l) = (s ++ sep ++ join sep l)%string.
Proof. destruct l; [congruence|reflexivity]. Qed.

Lemma join_merge_head (sep d s : string) (l : list string) :
  join sep ((d ++ sep ++ s)%string :: l) = join sep (d :: s :: l).
Proof.
  destruct l as [|y l]; [reflexivity|].
  rewrite (join_cons sep (d ++ sep ++ s)%string) by discriminate.
  rewrite (join_cons sep d) by discriminate.
  rewrite (join_cons sep s) by discriminate.
  now rewrite !string_app_assoc.
Qed.

Lemma join_snoc (sep s : string) (l : list string) :
  l <> [] -> join sep (l ++ [s]) = (join sep l ++ sep ++ s)%string.
Proof.
  induction l as [|x l IH]; [congruence|]. intros _.
  destruct l as [|y l]; [reflexivity|].
  change ((x :: y :: l) ++ [s]) with (x :: ((y :: l) ++ [s])).
  rewrite (join_cons sep x) by (destruct l; discriminate).
  rewrite IH by discriminate.
  rewrite (join_cons sep x) by discriminate.
  now rewrite !string_app_assoc.
Qed.

Lemma range_cons (lo hi : Z) :
  (lo < hi)%Z -> range lo hi = lo :: range (lo + 1) hi.
Proof.
  intros H. unfold range.
  replace (Z.to_nat (hi - lo)) with (S (Z.to_nat (hi - (lo + 1)))) by lia.
  simpl. f_equal; [lia|].
  rewrite <- seq_shift, map_map. apply map_ext. intros k. lia.
Qed.

Lemma range_empty (lo hi : Z) : (hi <= lo)%Z -> range lo hi = [].
Proof.
  intros H. unfold range. now replace (Z.to_nat (hi - lo)) with 0%nat by lia.
Qed.

Module SerializerMore.
Import Spline.
#[local] Open Scope string_scope.
Section WithArith.
Context {V : Type} {arith : JsArith V}.
Variable toString : V -> string.
Implicit Types (points c : @Path V) (tension : V).

(** X4. [buildSimplePathDString] succeeds exactly on two, three or four
    points, with or without [individual]: fewer points throw
    "# Points must be 2, 3, or 4 ...", more points throw the message that
    starts with their number. *)
Theorem buildSimplePathDString_domain c (individual : bool) :
  ((2 <= List.length c <= 4)%nat /\
   exists t, Serializer.buildSimplePathDString toString c individual = Ok t)
  \/
  ((List.length c < 2)%nat /\
   Serializer.buildSimplePathDString toString c individual =
   Throw (Error
     "# Points must be 2, 3, or 4. Note that <svg> does not support drawing a single point. Use a <circle> instead."))
  \/
  ((4 < List.length c)%nat /\
   Serializer.buildSimplePathDString toString c individual =
   Throw (Error (natToString (List.length c) ++
     " points do not form a simple curve (line segment, quadratic bezier, cubic bezier). Consider using Catmull-Rom or canonical spline decomposition"))).
Proof.
  destruct c as [|p0 [|p1 [|p2 [|p3 [|p4 c]]]]].
  - right; left. split; [simpl; lia|reflexivity].
  - right; left. split; [simpl; lia|reflexivity].
  - left. split; [simpl; lia|]. eexists. reflexivity.
  - left. split; [simpl; lia|]. eexists. reflexivity.
  - left. split; [simpl; lia|]. eexists. reflexivity.
  - right; right. split; [simpl; lia|reflexivity].
Qed.

(** X5. With [individual] set, the default, the output is the output
    without it behind the fixed text ["M ${points[0][0]} ${points[0][1]} "]:
    the placeholders are not filled in.  In both modes the result does not
    depend on the first point. *)
Theorem buildSimplePathDString_prefix_is_literal c :
  Serializer.buildSimplePathDString toString c true =
  (t <- Serializer.buildSimplePathDString toString c false ;;
   Ok ("M ${points[0][0]} ${points[0][1]} " ++ t)) /\
  (forall (individual : bool) (p0 p0' : Point) (rest : Path),
     Serializer.buildSimplePathDString toString (p0 :: rest) individual =
     Serializer.buildSimplePathDString toString (p0' :: rest) individual).
Proof.
  split.
  - destruct c as [|p0 [|p1 [|p2 [|p3 [|p4 c]]]]]; reflexivity.
  - intros individual p0 p0' rest.
    destruct rest as [|p1 [|p2 [|p3 [|p4 rest]]]]; reflexivity.
Qed.

(** X6. [buildSplineDString] fails exactly below two points: on no point
    with the message of the fitter, on one point with the message of
    [buildSimplePathDString]; from two points on it returns a string. *)
Theorem buildSplineDString_domain points tension :
  (points = [] /\
   Serializer.buildSplineDString toString points tension =
   Throw (Error "At least 1 point required"))
  \/
  ((exists p, points = [p]) /\
   Serializer.buildSplineDString toString points tension =
   Throw (Error
     "# Points must be 2, 3, or 4. Note that <svg> does not support drawing a single point. Use a <circle> instead."))
  \/
  ((2 <= List.length points)%nat /\
   exists out, Serializer.buildSplineDString toString points tension = Ok out).
Proof.
  destruct points as [|p0 [|p1 rest]].
  - left. split; reflexivity.
  - right; left. split; [now exists p0|reflexivity].
  - right; right.
    assert (Hn : (2 <= List.length (p0 :: p1 :: rest))%nat) by (simpl; lia).
    split; [exact Hn|].
    destruct (SerializerFacts.performCatmullRom_simple (p0 :: p1 :: rest) tension Hn)
      as (segs & E & Hsegs).
    destruct (SerializerFacts.tokens_exist toString segs Hsegs) as (tokens & Et & _).
    eexists. unfold Serializer.buildSplineDString. rewrite E. simpl.
    rewrite Et. reflexivity.
Qed.

End WithArith.
End SerializerMore.

Module ByPrimitiveFacts.
Import Spline.
#[local] Open Scope string_scope.
Section WithArith.
Context {V : Type} {arith : JsArith V}.
Variable toString : V -> string.
Implicit Types (points : @Path V) (tension : V).

Lemma canonicalSplineSegment_shape points tension (i : Z) (seg : Path) :
  canonicalSplineSegment points tension i = Ok seg ->
  exists a b c d, seg = [a; b; c; d].
Proof.
  unfold canonicalSplineSegment.
  destruct (at_index points (i - 1)) as [p0|]; simpl; [|discriminate].
  destruct (at_index points i) as [p1|]; simpl; [|discriminate].
  destruct (at_index points (i + 1)) as [p2|]; simpl; [|discriminate].
  destruct (at_index points (i + 2)) as [p3|]; simpl; [|discriminate].
  intros [= <-]. eauto.
Qed.

Lemma performCanonicalSpline_simple points tension :
  (2 <= List.length points)%nat ->
  exists segs : SimplePathList,
    performCanonicalSpline points tension = Ok segs /\
    Forall (fun c => (2 <= List.length c <= 4)%nat) segs.
Proof.
  intros Hn.
  destruct (Nat.lt_ge_cases (List.length points) 5) as [Hlt|Hge].
  - exists [points]. split.
    + unfold performCanonicalSpline.
      destruct (Z.eqb_spec (len points) 0); [unfold len in *; lia|].
      destruct (Z.ltb_spec (len points) 5); [reflexivity|unfold len in *; lia].
    + constructor; [lia|constructor].
  - destruct (SplineMore.performCanonicalSpline_nth points tension Hge)
      as (segs & E & Hlen & Hnth).
    exists segs. split; [exact E|].
    apply Forall_forall. intros c Hc.
    apply In_nth_error in Hc. destruct Hc as [k Hk].
    assert (Hk' : (k < List.length points - 3)%nat).
    { rewrite <- Hlen. apply nth_error_Some.
      unfold SimplePathList, Path, Point in *. rewrite Hk. discriminate. }
    destruct (Hnth k Hk') as (seg & Hseg & Eseg).
    unfold SimplePathList, Path, Point in *.
    rewrite Hk in Hseg. injection Hseg as <-.
    destruct (canonicalSplineSegment_shape _ _ _ _ Eseg) as (a & b & c' & d & ->).
    simpl. lia.
Qed.

(** A simple path serialized on its own starts with its own move-to. *)
Lemma buildSimplePathDString_own_moveto (c : @Path V) :
  (2 <= List.length c <= 4)%nat ->
  (forall v, count_char "M" (toString v) = 0%nat) ->
  exists t, SerializerByPrimitive.buildSimplePathDString toString c = Ok t /\
            count_char "M" t = 1%nat.
Proof.
  intros Hc HM.
  assert (Hp : forall p, count_char "M" (SerializerByPrimitive.coords toString p) = 0%nat).
  { intros p. unfold SerializerByPrimitive.coords.
    now rewrite !count_char_app, !HM. }
  destruct c as [|p0 [|p1 [|p2 [|p3 [|p4 c]]]]]; simpl in Hc; try lia;
    eexists; (split; [reflexivity|]);
    rewrite !count_char_app, !Hp; reflexivity.
Qed.

Lemma count_char_join_ones (l : list string) :
  Forall (fun s => count_char "M" s = 1%nat) l ->
  count_char "M" (join " " l) = List.length l.
Proof.
  induction 1 as [|s l Hs Hl IH]; [reflexivity|].
  destruct l as [|s' l]; [exact Hs|].
  rewrite join_cons by discriminate.
  rewrite !count_char_app, Hs, IH. reflexivity.
Qed.

(** X7. In the form with [primitive], on two points or more, the output
    has as many move-tos as the fit has segments: the letter [M] occurs
    once per segment as soon as no number prints with an [M]. *)
Theorem buildSplineDString_by_primitive_moveto_per_segment
  points (primitive : string) tension :
  (2 <= List.length points)%nat ->
  (forall v, count_char "M" (toString v) = 0%nat) ->
  exists (segs : SimplePathList) (out : string),
    (if String.eqb primitive "cubic"
     then performCanonicalSpline points tension
     else performCatmullRom points tension) = Ok segs /\
    SerializerByPrimitive.buildSplineDString toString points primitive tension =
      Ok out /\
    count_char "M" out = List.length segs.
Proof.
  intros Hn HM.
  assert (Hfit : exists segs : SimplePathList,
            (if String.eqb primitive "cubic"
             then performCanonicalSpline points tension
             else performCatmullRom points tension) = Ok segs /\
            Forall (fun c => (2 <= List.length c <= 4)%nat) segs).
  { destruct (String.eqb primitive "cubic").
    - now apply performCanonicalSpline_simple.
    - now apply SerializerFacts.performCatmullRom_simple. }
  destruct Hfit as (segs & E & Hsegs).
  assert (Htok : exists tokens,
            mapM (SerializerByPrimitive.buildSimplePathDString toString) segs =
              Ok tokens /\
            List.length tokens = List.length segs /\
            Forall (fun s => count_char "M" s = 1%nat) tokens).
  { clear E. induction Hsegs as [|c segs Hc _ IH]; simpl.
    - exists []. repeat split. constructor.
    - destruct (buildSimplePathDString_own_moveto c Hc HM) as (t & -> & Ht).
      destruct IH as (tokens & -> & Hlen & Hall).
      exists (t :: tokens). simpl. repeat split; [now rewrite Hlen|now constructor]. }
  destruct Htok as (tokens & Et & Hlen & Hall).
  exists segs, (join " " tokens). split; [exact E|]. split.
  - unfold SerializerByPrimitive.buildSplineDString. rewrite E. simpl.
    rewrite Et. reflexivity.
  - rewrite count_char_join_ones by exact Hall. exact Hlen.
Qed.

End WithArith.
End ByPrimitiveFacts.

(** ** Line sequences *)

Module PathStringsFacts.
Import PathStrings.
#[local] Open Scope string_scope.
Section WithArith.
Context {V : Type} {arith : JsArith V}.
Variable toString : V -> string.

Lemma line_loop (rest : list (V * V)) :
  forall (pre : list (V * V)) (d : string),
    foldM (fun d i => p <- at_index (pre ++ rest) i ;;
                      Ok (d ++ " L " ++ coords toString p))
      (range (Z.of_nat (List.length pre)) (Z.of_nat (List.length (pre ++ rest))))
      d
    = Ok (join " " (d :: map (lineTo toString) rest)).
Proof.
  induction rest as [|x rest IH]; intros pre d.
  - rewrite app_nil_r, range_empty by lia. reflexivity.
  - rewrite range_cons by (rewrite length_app; simpl; lia).
    simpl foldM.
    assert (Hx : at_index (pre ++ x :: rest) (Z.of_nat (List.length pre)) = Ok x).
    { apply at_index_nth. rewrite nth_error_app2 by lia.
      now rewrite Nat.sub_diag. }
    rewrite Hx. simpl bind.
    specialize (IH (pre ++ [x])%list (d ++ " L " ++ coords toString x)).
    rewrite <- app_assoc in IH.
    change ((pre ++ [x] ++ rest)%list) with ((pre ++ x :: rest)%list) in IH.
    replace (Z.of_nat (List.length (pre ++ [x])%list))
      with (Z.of_nat (List.length pre) + 1)%Z in IH
      by (rewrite length_app; simpl; lia).
    refine (eq_trans IH _). f_equal.
    exact (join_merge_head " " d (lineTo toString x) (map (lineTo toString) rest)).
Qed.

(** X8. [buildDStringForLineSequence] fails with a [TypeError] on no
    point.  On [p0 :: rest] it returns the clauses ["M p0"], one ["L p"]
    for each further point in order, and a final ["Z"] when [close] is
    set, with one space between a clause and the next. *)
Theorem buildDStringForLineSequence_clauses (points : list (V * V)) (close : bool) :
  (points = [] /\
   buildDStringForLineSequence toString points close = Throw TypeError)
  \/
  (exists p0 rest,
     points = p0 :: rest /\
     buildDStringForLineSequence toString points close =
     Ok (join " " (("M " ++ coords toString p0)%string
                     :: map (lineTo toString) rest
                     ++ (if close then ["Z"%string] else []))%list)).
Proof.
  destruct points as [|p0 rest]; [left; split; reflexivity|right].
  exists p0, rest. split; [reflexivity|].
  unfold buildDStringForLineSequence.
  change (at_index (p0 :: rest) 0) with (Ok p0). simpl bind.
  pose proof (line_loop rest [p0] ("M " ++ coords toString p0)) as Hloop.
  match goal with
  | |- context [foldM ?f ?r ?d] =>
      assert (H : foldM f r d =
                  Ok (join " " (("M " ++ coords toString p0)
                                  :: map (lineTo toString) rest)))
        by exact Hloop;
      rewrite H
  end.
  simpl bind. f_equal.
  destruct close; [|now rewrite app_nil_r].
  change (("M " ++ coords toString p0) :: (map (lineTo toString) rest ++ ["Z"])%list)
    with ((("M " ++ coords toString p0)%string :: map (lineTo toString) rest)
            ++ ["Z"%string])%list.
  rewrite join_snoc by discriminate. reflexivity.
Qed.

End WithArith.
End PathStringsFacts.

(** ** The path interpreter *)

Module StateMachineMore.
Import StateMachine StateMachineTerms.
Section WithArith.
Context {V : Type} {arith : JsArith V}.
Implicit Types (st : @State V) (a : list V) (tip : @Point V).

Ltac run_command Htip :=
  unfold processCommand, shiftPointIfNeeded, fromBrushTip, tipCoordinates;
  simpl; rewrite ?Htip; simpl.

Lemma processCommand_unsupported st (n : string) a :
  ~ In n supported_names ->
  processCommand {| name := n; args := a |} st =
  Throw (Error ("Unsupported SVG command: " ++ n)).
Proof.
  intros Hn.
  assert (Hne : forall s, In s supported_names -> String.eqb n s = false).
  { intros s Hs. apply String.eqb_neq. intros ->. contradiction. }
  unfold processCommand, is_case. simpl name.
  repeat match goal with
         | |- context [String.eqb n ?s] =>
             rewrite (Hne s) by (simpl; tauto)
         end.
  reflexivity.
Qed.

(** X9. A command whose name is none of the sixteen the interpreter knows
    aborts the run with "Unsupported SVG command: <name>", whatever was
    interpreted before it and whatever follows; the primitives of the
    commands before it are not returned. *)
Theorem unsupported_command_aborts
  (before after : list (@SVGCommand V)) (c : @SVGCommand V) :
  ~ In (name c) supported_names ->
  (exists gs, executeSVGStateMachine before = Ok gs) ->
  executeSVGStateMachine (before ++ c :: after) =
  Throw (Error ("Unsupported SVG command: " ++ name c)).
Proof.
  intros Hn [gs Hgs]. unfold executeSVGStateMachine in *.
  rewrite StateMachineFacts.processAll_app.
  destruct (processAll before initial) as [st1|e]; [|discriminate].
  simpl. destruct c as [n a]. simpl in Hn.
  now rewrite (processCommand_unsupported st1 n a Hn).
Qed.

(** X10. Before any brush tip is set, the relative commands [m], [l],
    [c], [q] and [a] throw "Brush tip not set", and the four
    horizontal and vertical commands fail with a [TypeError]. *)
Theorem commands_before_the_first_move st a :
  brushTip st = None ->
  (forall n, In n ["m"; "l"; "c"; "q"; "a"]%string ->
     processCommand {| name := n; args := a |} st =
     Throw (Error "Brush tip not set")) /\
  (forall n, In n ["H"; "h"; "V"; "v"]%string ->
     processCommand {| name := n; args := a |} st = Throw TypeError).
Proof.
  intros Htip. split; intros n Hn; simpl in Hn;
    repeat (destruct Hn as [<- | Hn]; [now run_command Htip|]);
    contradiction.
Qed.

Lemma step_move (c : @SVGCommand V) st tip :
  In (name c) ["M"; "m"]%string -> brushTip st = Some tip ->
  exists p, processCommand c st = Ok (setBrushTip p st).
Proof.
  destruct c as [n a]. simpl. intros Hn Htip.
  repeat (destruct Hn as [<- | Hn]; [run_command Htip; eauto|]).
  contradiction.
Qed.

Lemma step_stroke (c : @SVGCommand V) st tip :
  In (name c) stroke_names -> brushTip st = Some tip ->
  exists g, processCommand c st = Ok (setBrushTip (end_of g) (push g st)) /\
            p1_of g = Some tip.
Proof.
  destruct c as [n a]. simpl. intros Hn Htip.
  repeat (destruct Hn as [<- | Hn];
          [run_command Htip;
           match goal with
           | |- exists g, Ok (setBrushTip _ (push ?g0 _)) = _ /\ _ => exists g0
           end;
           split; reflexivity|]).
  contradiction.
Qed.

Lemma step_arc (c : @SVGCommand V) st tip :
  In (name c) arc_names -> brushTip st = Some tip ->
  exists g, processCommand c st = Ok (push g st) /\ p1_of g = None.
Proof.
  destruct c as [n a]. simpl. intros Hn Htip.
  repeat (destruct Hn as [<- | Hn];
          [run_command Htip; eexists; split; [reflexivity|reflexivity]|]).
  contradiction.
Qed.

Lemma step_close (c : @SVGCommand V) st :
  In (name c) ["Z"; "z"]%string ->
  processCommand c st = Ok st \/ exists g, processCommand c st = Ok (push g st).
Proof.
  destruct c as [n a]. simpl. intros Hn.
  assert (E : processCommand {| name := n; args := a |} st =
              match geometry st with
              | first :: _ =>
                  match p1_of first with
                  | Some start => Ok (push (Line (brushTip st) start) st)
                  | None => Ok st
                  end
              | [] => Ok st
              end).
  { repeat (destruct Hn as [<- | Hn]; [reflexivity|]). contradiction. }
  rewrite E. destruct (geometry st) as [|first rest]; [now left|].
  destruct (p1_of first); [right; eauto|now left].
Qed.

Lemma supported_names_split (n : string) :
  In n supported_names ->
  In n ["M"; "m"]%string \/ In n stroke_names \/ In n arc_names \/
  In n ["Z"; "z"]%string.
Proof. simpl. intuition. Qed.

(** X11. Once the brush tip is set, a run over commands with known names
    cannot fail: it ends with the tip still set, the primitives already
    emitted are kept as they are, and each command adds one primitive at
    most. *)
Theorem run_with_tip_set (cs : list (@SVGCommand V)) :
  forall st tip,
    brushTip st = Some tip ->
    Forall (fun c => In (name c) supported_names) cs ->
    exists st' added,
      processAll cs st = Ok st' /\
      brushTip st' <> None /\
      geometry st' = geometry st ++ added /\
      (List.length added <= List.length cs)%nat.
Proof.
  induction cs as [|c cs IH]; intros st tip Htip Hall.
  - exists st, []. repeat split; [congruence|now rewrite app_nil_r|simpl; lia].
  - inversion Hall as [|? ? Hc Hcs]; subst.
    assert (Hstep : exists st1 tip1 added1,
              processCommand c st = Ok st1 /\ brushTip st1 = Some tip1 /\
              geometry st1 = geometry st ++ added1 /\
              (List.length added1 <= 1)%nat).
    { destruct (supported_names_split _ Hc) as [H | [H | [H | H]]].
      - destruct (step_move c st tip H Htip) as [p E].
        exists (setBrushTip p st), p, []. repeat split; [exact E| |simpl; lia].
        simpl. now rewrite app_nil_r.
      - destruct (step_stroke c st tip H Htip) as (g & E & _).
        exists (setBrushTip (end_of g) (push g st)), (end_of g), [g].
        repeat split; [exact E|simpl; lia].
      - destruct (step_arc c st tip H Htip) as (g & E & _).
        exists (push g st), tip, [g].
        repeat split; [exact E|exact Htip|simpl; lia].
      - destruct (step_close c st H) as [E | [g E]].
        + exists st, tip, []. repeat split; [exact E|exact Htip| |simpl; lia].
          now rewrite app_nil_r.
        + exists (push g st), tip, [g].
          repeat split; [exact E|exact Htip|simpl; lia]. }
    destruct Hstep as (st1 & tip1 & added1 & E1 & Htip1 & Hg1 & Hlen1).
    destruct (IH st1 tip1 Htip1 Hcs) as (st' & added & E & Htip' & Hg & Hlen).
    exists st', (added1 ++ added). simpl. rewrite E1. simpl.
    repeat split; [exact E|exact Htip'| |rewrite length_app; lia].
    now rewrite Hg, Hg1, app_assoc.
Qed.

(** X12. A run of line and curve commands ([L l H h V v C c Q q]) from a
    set brush tip emits one primitive per command, and the primitives form
    a chain: the first starts at the tip, each next one starts where the
    previous one ends, and the tip finishes at the end of the last. *)
Theorem strokes_form_a_chain (cs : list (@SVGCommand V)) :
  forall st tip,
    brushTip st = Some tip ->
    Forall (fun c => In (name c) stroke_names) cs ->
    exists added,
      processAll cs st =
        Ok {| geometry := geometry st ++ added;
              brushTip := Some (chain_end tip added) |} /\
      List.length added = List.length cs /\
      chained tip added.
Proof.
  induction cs as [|c cs IH]; intros st tip Htip Hall.
  - exists []. simpl. rewrite app_nil_r, <- Htip. now destruct st.
  - inversion Hall as [|? ? Hc Hcs]; subst.
    destruct (step_stroke c st tip Hc Htip) as (g & E & Hp1).
    destruct (IH (setBrushTip (end_of g) (push g st)) (end_of g) eq_refl Hcs)
      as (added & Erest & Hlen & Hchain).
    exists (g :: added). simpl. rewrite E. simpl.
    repeat split; [|now rewrite Hlen|exact Hp1|exact Hchain].
    rewrite Erest. simpl. now rewrite <- app_assoc.
Qed.

(** X13. Arc commands never move the brush tip: after any run of [A] and
    [a] commands from a set tip, one arc has been emitted per command and
    the tip is where it was.  None of the arcs has a start point [p1]. *)
Theorem arcs_leave_the_tip (cs : list (@SVGCommand V)) :
  forall st tip,
    brushTip st = Some tip ->
    Forall (fun c => In (name c) arc_names) cs ->
    exists added,
      processAll cs st =
        Ok {| geometry := geometry st ++ added; brushTip := Some tip |} /\
      List.length added = List.length cs /\
      Forall (fun g => p1_of g = None) added.
Proof.
  induction cs as [|c cs IH]; intros st tip Htip Hall.
  - exists []. simpl. rewrite app_nil_r, <- Htip. now destruct st.
  - inversion Hall as [|? ? Hc Hcs]; subst.
    destruct (step_arc c st tip Hc Htip) as (g & E & Hp1).
    destruct (IH (push g st) tip Htip Hcs) as (added & Erest & Hlen & Hnone).
    exists (g :: added). simpl. rewrite E. simpl.
    repeat split; [|now rewrite Hlen|now constructor].
    rewrite Erest. simpl. now rewrite <- app_assoc.
Qed.

(** X14. The relative [h] and [v] shift both coordinates: from the tip
    [(tx, ty)], [h d] draws to [(tx + d, ty + ty)] and [v d] to
    [(tx + tx, ty + d)], the untouched coordinate of the tip being added
    to itself; the absolute [H d] and [V d] draw to [(d, ty)] and
    [(tx, d)].  In each case the tip moves to the end of the line. *)
Theorem horizontal_and_vertical_targets st (tx ty d : V) :
  brushTip st = Some (tx, ty) ->
  let line_to (target : Point) : result State :=
    Ok {| geometry := geometry st ++ [Line (Some (tx, ty)) target];
          brushTip := Some target |} in
  processCommand {| name := "h"; args := [d] |} st =
    line_to (js_add tx d, js_add ty ty) /\
  processCommand {| name := "v"; args := [d] |} st =
    line_to (js_add tx tx, js_add ty d) /\
  processCommand {| name := "H"; args := [d] |} st = line_to (d, ty) /\
  processCommand {| name := "V"; args := [d] |} st = line_to (tx, d).
Proof.
  intros Htip line_to. unfold line_to.
  repeat split; run_command Htip; unfold setBrushTip, push; simpl;
    rewrite ?Htip; reflexivity.
Qed.

Lemma processCommand_absolute_L st tip (p : Point) :
  brushTip st = Some tip ->
  processCommand (absolute "L" p) st =
  Ok {| geometry := geometry st ++ [Line (Some tip) p]; brushTip := Some p |}.
Proof.
  intros Htip. destruct p as [px py].
  unfold absolute. run_command Htip. unfold setBrushTip, push; simpl.
  rewrite ?Htip. reflexivity.
Qed.

Lemma last_step {A : Type} (l : list A) :
  forall x d : A, last (x :: l) d = last l x.
Proof.
  induction l as [|y l IH]; intros x d; [reflexivity|].
  change (last (x :: y :: l) d) with (last (y :: l) d).
  now rewrite (IH y d), (IH y x).
Qed.

Lemma lines_through (rest : list Point) :
  forall st tip,
    brushTip st = Some tip ->
    processAll (map (absolute "L") rest) st =
    Ok {| geometry := geometry st ++ edges tip rest;
          brushTip := Some (last rest tip) |}.
Proof.
  induction rest as [|p rest IH]; intros st tip Htip.
  - simpl. rewrite app_nil_r, <- Htip. now destruct st.
  - cbn [map processAll]. rewrite (processCommand_absolute_L st tip p Htip).
    cbn [bind].
    rewrite (IH {| geometry := geometry st ++ [Line (Some tip) p];
                   brushTip := Some p |} p eq_refl).
    cbn [geometry edges].
    rewrite <- app_assoc, (last_step rest p tip). reflexivity.
Qed.

(** X15. The commands of a closed line sequence, [M p0], [L p] for each
    further point and [Z], are interpreted as the closed polygon: the
    edges from each point to the next, then the edge from the last point
    back to [p0].  With no further point nothing is emitted. *)
Theorem closed_line_sequence_is_a_polygon (p0 : Point) (rest : list Point) :
  executeSVGStateMachine
    (absolute "M" p0 :: map (absolute "L") rest ++ [closePath]) =
  Ok (edges p0 rest ++
      match rest with
      | [] => []
      | _ => [Line (Some (last rest p0)) p0]
      end).
Proof.
  unfold executeSVGStateMachine. cbn [processAll].
  assert (EM : processCommand (absolute "M" p0) initial =
               Ok {| geometry := []; brushTip := Some p0 |}).
  { destruct p0 as [px py]. reflexivity. }
  rewrite EM. cbn [bind].
  rewrite StateMachineFacts.processAll_app.
  rewrite (lines_through rest {| geometry := []; brushTip := Some p0 |} p0 eq_refl).
  cbn [bind geometry app].
  rewrite StateMachineFacts.processAll_one.
  destruct rest as [|p1 rest]; [reflexivity|].
  cbn [edges]. reflexivity.
Qed.

End WithArith.
End StateMachineMore.

(** ** Bounding boxes *)

Module BoundingBoxMore.
Import BoundingBox BoundingBoxFacts.

(** The loop gives the same result on every rearrangement of its items. *)
Lemma fold_absorb_perm (items items' : list Value) :
  Permutation items items' ->
  forall e, fold_left absorb items e = fold_left absorb items' e.
Proof.
  induction 1 as [|u l l' _ IH|u v l|l l' l'' _ IH1 _ IH2]; intros e; simpl.
  - reflexivity.
  - apply IH.
  - now rewrite absorb_swap.
  - now rewrite IH1.
Qed.

(** X16. The order of the entries does not matter: on entries with finite
    coordinates, [combineBoundingBoxes] returns the same result for every
    rearrangement of its arguments. *)
Theorem combineBoundingBoxes_order_irrelevant (entries entries' : list (option Box)) :
  Permutation entries entries' ->
  Forall finite_entry entries ->
  combineBoundingBoxes (map entry entries) =
  combineBoundingBoxes (map entry entries').
Proof.
  intros P _.
  destruct entries as [|e entries].
  { apply Permutation_nil in P. now subst. }
  assert (Hne' : entries' <> []).
  { intros ->. symmetry in P. apply Permutation_nil in P. discriminate. }
  rewrite !combineBoundingBoxes_variadic by (discriminate || exact Hne').
  f_equal. f_equal. apply fold_absorb_perm. now apply Permutation_map.
Qed.

(** X17. Absent entries are skipped: as soon as one entry is present, the
    result is the one obtained from the present entries alone. *)
Theorem absent_entries_are_skipped (entries : list (option Box)) :
  present entries <> [] ->
  combineBoundingBoxes (map entry entries) =
  combineBoundingBoxes (map Obj (present entries)).
Proof.
  intros Hne.
  assert (Hentries : entries <> []) by (intros ->; now apply Hne).
  rewrite combineBoundingBoxes_variadic by exact Hentries.
  rewrite fold_absorb_present.
  destruct (present entries) as [|b bs]; [congruence|reflexivity].
Qed.

Lemma absorb_nan (item : Value) : absorb nan_extent item = nan_extent.
Proof. unfold absorb. destruct (truthy item); reflexivity. Qed.

Lemma fold_absorb_nan (items : list Value) :
  fold_left absorb items nan_extent = nan_extent.
Proof.
  induction items as [|item items IH]; simpl; [reflexivity|].
  now rewrite absorb_nan.
Qed.

Lemma absorb_array (e : Extent) (elements : list Value) :
  absorb e (Arr elements) = nan_extent.
Proof.
  unfold absorb, Math_min, Math_max, float_min, float_max, nan_extent; simpl.
  now rewrite !orb_true_r.
Qed.

(** X18. An array among the items of the loop, that is, an array after
    the first argument or inside the array argument, turns the whole
    result into [{x: NaN, y: NaN, width: NaN, height: NaN}], whatever the
    other items are. *)
Theorem nested_array_gives_nan
  (first : option Box) (before after elements : list Value) :
  combineBoundingBoxes (entry first :: before ++ Arr elements :: after) =
    Some nan_box /\
  combineBoundingBoxes [Arr (before ++ Arr elements :: after)] = Some nan_box.
Proof.
  assert (H : forall e, fold_left absorb (before ++ Arr elements :: after) e =
                        nan_extent).
  { intros e. rewrite fold_left_app. simpl.
    now rewrite absorb_array, fold_absorb_nan. }
  split.
  - destruct first as [b|]; simpl; now rewrite H.
  - simpl. now rewrite H.
Qed.

End BoundingBoxMore.

(** ** The extent of the present entries *)

Module ExtentFacts.
Import BoundingBox BoundingBoxFacts.

(** *** Rounding never yields [NaN] *)

Lemma shr_1_nonneg (mrs : shr_record) :
  (0 <= shr_m mrs)%Z -> (0 <= shr_m (shr_1 mrs))%Z.
Proof.
  destruct mrs as [m r s]. simpl.
  destruct m as [|[p|p|]|[p|p|]]; simpl; lia.
Qed.

Lemma iter_pos_shr_1_nonneg (p : positive) :
  forall mrs, (0 <= shr_m mrs)%Z -> (0 <= shr_m (iter_pos shr_1 p mrs))%Z.
Proof.
  induction p as [p IH|p IH|]; intros mrs H; simpl.
  - apply IH, IH, shr_1_nonneg, H.
  - apply IH, IH, H.
  - apply shr_1_nonneg, H.
Qed.

Lemma shr_fexp_nonneg (m e : Z) (l : location) :
  (0 <= m)%Z -> (0 <= shr_m (fst (shr_fexp prec emax m e l)))%Z.
Proof.
  intros H. unfold shr_fexp, shr.
  assert (H0 : (0 <= shr_m (shr_record_of_loc m l))%Z)
    by (destruct l as [|[| |]]; exact H).
  destruct (_ - e)%Z; simpl; try exact H0.
  now apply iter_pos_shr_1_nonneg.
Qed.

Lemma round_nearest_even_nonneg (m : Z) (l : location) :
  (0 <= m)%Z -> (0 <= round_nearest_even m l)%Z.
Proof.
  intros H. destruct l as [|[| |]]; simpl; try lia.
  destruct (Z.even m); lia.
Qed.

Lemma binary_round_aux_not_nan (s : bool) (m e : Z) (l : location) :
  (0 <= m)%Z -> SFis_nan (binary_round_aux prec emax s m e l) = false.
Proof.
  intros H. unfold binary_round_aux.
  pose proof (shr_fexp_nonneg m e l H) as H1.
  destruct (shr_fexp prec emax m e l) as [mrs' e']. simpl in H1.
  pose proof (shr_fexp_nonneg _ e' loc_Exact
                (round_nearest_even_nonneg _ (loc_of_shr_record mrs') H1)) as H2.
  destruct (shr_fexp prec emax _ e' loc_Exact) as [mrs'' e'']. simpl in H2.
  destruct (shr_m mrs''); try lia; [reflexivity|].
  destruct (_ <=? _)%Z; reflexivity.
Qed.

Lemma binary_normalize_not_nan (m e : Z) (szero : bool) :
  SFis_nan (binary_normalize prec emax m e szero) = false.
Proof.
  unfold binary_normalize, binary_round.
  destruct m as [|p|p]; [reflexivity| |];
    destruct (shl_align _ _ _) as [mz ez];
    apply binary_round_aux_not_nan; lia.
Qed.

(** *** Finite numbers *)

Lemma is_finite_spec (f : float) : is_finite f = SFis_finite (Prim2SF f).
Proof.
  unfold is_finite, is_infinity.
  rewrite is_nan_spec, FloatAxioms.eqb_spec, abs_spec.
  change (Prim2SF infinity) with (S754_infinity false).
  destruct (Prim2SF f) as [[|]|[|]| |[|] m e]; reflexivity.
Qed.

Lemma SFadd_finite (x y : spec_float) :
  SFis_finite x = true -> SFis_finite y = true ->
  SFis_nan (SF64add x y) = false.
Proof.
  destruct x as [[|]|[|]| |sx mx ex], y as [[|]|[|]| |sy my ey];
    try discriminate; intros _ _; try reflexivity.
  apply binary_normalize_not_nan.
Qed.

Lemma finite_is_number (v : jsnum) : finite v -> number v.
Proof.
  unfold finite, number. rewrite is_finite_spec, is_nan_spec.
  destruct (Prim2SF (toNumber v)); simpl; congruence.
Qed.

(** The sum of two finite numbers can overflow, to an infinity; it is
    never [NaN]. *)
Lemma sum_is_number (a b : jsnum) : finite a -> finite b -> number (num_add a b).
Proof.
  unfold finite, number, num_add. simpl.
  rewrite !is_finite_spec, is_nan_spec, add_spec. apply SFadd_finite.
Qed.

Lemma number_Num (v : jsnum) : number v -> Num (toNumber v) = v.
Proof. destruct v as [|f]; [discriminate|reflexivity]. Qed.

(** *** The order [<=] on numbers *)

Lemma SFleb_okey (x y : spec_float) :
  SFis_nan x = false -> SFis_nan y = false ->
  (SFleb x y = true <-> key_le (okey x) (okey y)).
Proof.
  destruct x as [[|]|[|]| |[|] m1 e1], y as [[|]|[|]| |[|] m2 e2];
    try discriminate; intros _ _;
    unfold SFleb, SFcompare; simpl; compare_cases;
    split; intros Hle; first [reflexivity | discriminate Hle | simpl in *; lia].
Qed.

Lemma key_le_okey (x y : spec_float) :
  key_le (key x) (key y) -> key_le (okey x) (okey y).
Proof.
  destruct x as [[|]|[|]| |[|] m1 e1], y as [[|]|[|]| |[|] m2 e2];
    simpl; lia.
Qed.

Lemma key_lt_okey (x y : spec_float) :
  key_lt (key x) (key y) -> key_le (okey x) (okey y).
Proof.
  destruct x as [[|]|[|]| |[|] m1 e1], y as [[|]|[|]| |[|] m2 e2];
    simpl; lia.
Qed.

Lemma SFleb_numbers (x y : spec_float) :
  SFleb x y = true -> SFis_nan x = false /\ SFis_nan y = false.
Proof. destruct x as [| | |]; destruct y as [| | |]; try discriminate; auto. Qed.

Lemma num_leb_spec (a b : jsnum) :
  num_leb a b = SFleb (Prim2SF (toNumber a)) (Prim2SF (toNumber b)).
Proof. apply FloatAxioms.leb_spec. Qed.

Lemma num_leb_refl (v : jsnum) : number v -> num_leb v v = true.
Proof.
  unfold number. rewrite is_nan_spec, num_leb_spec. intros H.
  apply SFleb_okey; try assumption.
  unfold key_le. destruct (okey _) as [[a b] c]. lia.
Qed.

Lemma num_leb_trans (a b c : jsnum) :
  num_leb a b = true -> num_leb b c = true -> num_leb a c = true.
Proof.
  rewrite !num_leb_spec. intros H1 H2.
  destruct (SFleb_numbers _ _ H1) as [Ha Hb].
  destruct (SFleb_numbers _ _ H2) as [_ Hc].
  apply SFleb_okey in H1, H2; try assumption.
  apply SFleb_okey; try assumption.
  unfold key_le in *.
  destruct (okey (Prim2SF (toNumber a))) as [[a1 a2] a3],
           (okey (Prim2SF (toNumber b))) as [[b1 b2] b3],
           (okey (Prim2SF (toNumber c))) as [[c1 c2] c3].
  lia.
Qed.

(** [Math.min] of two numbers is one of them, below both. *)
Lemma Math_min_step (a v : jsnum) :
  number a -> number v ->
  number (Math_min a v) /\
  (Math_min a v = a \/ Math_min a v = v) /\
  num_leb (Math_min a v) a = true /\ num_leb (Math_min a v) v = true.
Proof.
  intros Ha Hv.
  pose proof (number_Num a Ha) as Ea. pose proof (number_Num v Hv) as Ev.
  unfold number in *. rewrite is_nan_spec in Ha, Hv.
  rewrite !num_leb_spec. unfold Math_min. cbn [toNumber].
  rewrite is_nan_spec, float_min_spec.
  destruct (SFmin_key _ _ Ha Hv) as [[Hk E] | [Hk E]]; rewrite E.
  - split; [exact Hv|]. split; [|split].
    + right. rewrite <- Ev at 2. f_equal. apply Prim2SF_inj.
      now rewrite float_min_spec.
    + apply SFleb_okey; try assumption. now apply key_lt_okey.
    + apply SFleb_okey; try assumption.
      unfold key_le. destruct (okey _) as [[k1 k2] k3]. lia.
  - split; [exact Ha|]. split; [|split].
    + left. rewrite <- Ea at 2. f_equal. apply Prim2SF_inj.
      now rewrite float_min_spec.
    + apply SFleb_okey; try assumption.
      unfold key_le. destruct (okey _) as [[k1 k2] k3]. lia.
    + apply SFleb_okey; try assumption. now apply key_le_okey.
Qed.

Lemma Math_max_step (a v : jsnum) :
  number a -> number v ->
  number (Math_max a v) /\
  (Math_max a v = a \/ Math_max a v = v) /\
  num_leb a (Math_max a v) = true /\ num_leb v (Math_max a v) = true.
Proof.
  intros Ha Hv.
  pose proof (number_Num a Ha) as Ea. pose proof (number_Num v Hv) as Ev.
  unfold number in *. rewrite is_nan_spec in Ha, Hv.
  rewrite !num_leb_spec. unfold Math_max. cbn [toNumber].
  rewrite is_nan_spec, float_max_spec.
  destruct (SFmax_key _ _ Ha Hv) as [[Hk E] | [Hk E]]; rewrite E.
  - split; [exact Hv|]. split; [|split].
    + right. rewrite <- Ev at 2. f_equal. apply Prim2SF_inj.
      now rewrite float_max_spec.
    + apply SFleb_okey; try assumption. now apply key_lt_okey.
    + apply SFleb_okey; try assumption.
      unfold key_le. destruct (okey _) as [[k1 k2] k3]. lia.
  - split; [exact Ha|]. split; [|split].
    + left. rewrite <- Ea at 2. f_equal. apply Prim2SF_inj.
      now rewrite float_max_spec.
    + apply SFleb_okey; try assumption.
      unfold key_le. destruct (okey _) as [[k1 k2] k3]. lia.
    + apply SFleb_okey; try assumption. now apply key_le_okey.
Qed.

(** Folding [Math.min] over numbers yields the least of them and of the
    start value. *)
Lemma fold_min_least (l : list jsnum) :
  forall a, number a -> Forall number l ->
    least (fold_left Math_min l a) (a :: l).
Proof.
  induction l as [|v l IH]; intros a Ha Hl; simpl.
  - split; [now left|]. intros w [<- | []]. now apply num_leb_refl.
  - inversion Hl as [|? ? Hv Hl']; subst.
    destruct (Math_min_step a v Ha Hv) as (Hn & Hcase & Hle_a & Hle_v).
    destruct (IH (Math_min a v) Hn Hl') as [Hin Hle].
    split.
    + destruct Hin as [E | Hin]; [|now right; right].
      rewrite <- E. destruct Hcase as [-> | ->]; [now left|now right; left].
    + intros w [<- | [<- | Hw]].
      * exact (num_leb_trans _ _ _ (Hle _ (or_introl eq_refl)) Hle_a).
      * exact (num_leb_trans _ _ _ (Hle _ (or_introl eq_refl)) Hle_v).
      * exact (Hle _ (or_intror Hw)).
Qed.

Lemma fold_max_greatest (l : list jsnum) :
  forall a, number a -> Forall number l ->
    greatest (fold_left Math_max l a) (a :: l).
Proof.
  induction l as [|v l IH]; intros a Ha Hl; simpl.
  - split; [now left|]. intros w [<- | []]. now apply num_leb_refl.
  - inversion Hl as [|? ? Hv Hl']; subst.
    destruct (Math_max_step a v Ha Hv) as (Hn & Hcase & Hle_a & Hle_v).
    destruct (IH (Math_max a v) Hn Hl') as [Hin Hle].
    split.
    + destruct Hin as [E | Hin]; [|now right; right].
      rewrite <- E. destruct Hcase as [-> | ->]; [now left|now right; left].
    + intros w [<- | [<- | Hw]].
      * exact (num_leb_trans _ _ _ Hle_a (Hle _ (or_introl eq_refl))).
      * exact (num_leb_trans _ _ _ Hle_v (Hle _ (or_introl eq_refl))).
      * exact (Hle _ (or_intror Hw)).
Qed.

(** With [Infinity] as start value the least element is one of the list. *)
Lemma fold_min_from_infinity (l : list jsnum) :
  l <> [] -> Forall number l -> least (fold_left Math_min l PosInf) l.
Proof.
  destruct l as [|v l]; [congruence|]. intros _ Hl.
  inversion Hl as [|? ? Hv Hl']; subst. simpl.
  rewrite Math_min_PosInf, (number_Num v Hv). now apply fold_min_least.
Qed.

Lemma fold_max_from_infinity (l : list jsnum) :
  l <> [] -> Forall number l -> greatest (fold_left Math_max l NegInf) l.
Proof.
  destruct l as [|v l]; [congruence|]. intros _ Hl.
  inversion Hl as [|? ? Hv Hl']; subst. simpl.
  rewrite Math_max_NegInf, (number_Num v Hv). now apply fold_max_greatest.
Qed.

Lemma Forall_number_map (f : Box -> jsnum) (bs : list Box) :
  (forall b, finite_box b -> number (f b)) ->
  Forall finite_box bs -> Forall number (map f bs).
Proof.
  intros Hf H. induction H as [|b bs Hb _ IH]; simpl; constructor; auto.
Qed.

Lemma map_nonempty {A B : Type} (f : A -> B) (l : list A) : l <> [] -> map f l <> [].
Proof. destruct l; [congruence|discriminate]. Qed.

(** X23. When at least one entry is present, the present entries having
    finite coordinates, the result is the rectangle the present entries
    span: [x] and [y] are the least [x] and [y] among them, and [width]
    and [height] are the greatest [x + width] and the greatest
    [y + height] among them minus [x] and [y], all sums and differences
    being those of floating-point arithmetic. *)
Theorem extent_of_present_entries (entries : list (option Box)) :
  Forall finite_entry entries ->
  present entries <> [] ->
  exists r : Box,
    combineBoundingBoxes (map entry entries) = Some r /\
    least (x r) (map x (present entries)) /\
    least (y r) (map y (present entries)) /\
    (exists right, greatest right (map right_edge (present entries)) /\
                   width r = num_sub right (x r)) /\
    (exists bottom, greatest bottom (map bottom_edge (present entries)) /\
                    height r = num_sub bottom (y r)).
Proof.
  intros Hfin Hne.
  assert (Hentries : entries <> []) by (intros ->; now apply Hne).
  set (bs := present entries) in *.
  assert (Hbs : Forall finite_box bs) by now apply present_finite.
  set (e := fold_left absorb (map entry entries) empty_extent).
  exists (extent_box e).
  split; [now apply combineBoundingBoxes_variadic|].
  assert (He : e = fold_left absorb (map Obj bs) empty_extent)
    by apply fold_absorb_present.
  destruct (fold_absorb_components bs empty_extent) as (Ex & Ey & Er & Eb).
  rewrite <- He in Ex, Ey, Er, Eb. simpl in Ex, Ey, Er, Eb.
  assert (Lx := fold_min_from_infinity (map x bs) (map_nonempty _ _ Hne)
                  (Forall_number_map x bs
                     (fun b Hb => finite_is_number _ (proj1 Hb)) Hbs)).
  assert (Ly := fold_min_from_infinity (map y bs) (map_nonempty _ _ Hne)
                  (Forall_number_map y bs
                     (fun b Hb => finite_is_number _ (proj1 (proj2 Hb))) Hbs)).
  assert (Lr := fold_max_from_infinity (map right_edge bs) (map_nonempty _ _ Hne)
                  (Forall_number_map right_edge bs
                     (fun b Hb => sum_is_number _ _ (proj1 Hb)
                                    (proj1 (proj2 (proj2 Hb)))) Hbs)).
  assert (Lb := fold_max_from_infinity (map bottom_edge bs) (map_nonempty _ _ Hne)
                  (Forall_number_map bottom_edge bs
                     (fun b Hb => sum_is_number _ _ (proj1 (proj2 Hb))
                                    (proj2 (proj2 (proj2 Hb)))) Hbs)).
  rewrite <- Ex in Lx. rewrite <- Ey in Ly. rewrite <- Er in Lr. rewrite <- Eb in Lb.
  split; [exact Lx|]. split; [exact Ly|]. split.
  - exists (maxX e). split; [exact Lr|reflexivity].
  - exists (maxY e). split; [exact Lb|reflexivity].
Qed.

End ExtentFacts.

(** ** The bounding box of the content *)

Module ContentBoundsFacts.
Import BoundingBox BoundingBoxFacts ContentBounds.
Section WithBounds.
Variable elementBounds : string -> result Box.

Lemma loop_of_bounds (elements : list string) (bs : list Box) :
  Forall2 (fun el b => elementBounds el = Ok b) elements bs ->
  forall acc,
    foldM (fun boundingBox elementText =>
             b <- elementBounds elementText ;;
             Ok (incorporateBoundingBox boundingBox b))
      elements acc
    = Ok (fold_left incorporateBoundingBox bs acc).
Proof.
  induction 1 as [|el b elements bs Hb _ IH]; intros acc; simpl; [reflexivity|].
  rewrite Hb. simpl. apply IH.
Qed.

(** The corner of the box that [incorporateBoundingBox] carries along is
    the corner of the loop of [combineBoundingBoxes] over the same boxes. *)
Lemma incorporate_corner (bs : list Box) :
  forall (acc : Box) (e : Extent),
    minX e = x acc -> minY e = y acc ->
    exists r,
      fold_left incorporateBoundingBox bs (Some acc) = Some r /\
      x r = minX (fold_left absorb (map Obj bs) e) /\
      y r = minY (fold_left absorb (map Obj bs) e).
Proof.
  induction bs as [|b bs IH]; intros acc e Hx Hy; simpl.
  - exists acc. auto.
  - apply IH; simpl; rewrite Math_min_PosInf; unfold Math_min; simpl;
      [now rewrite Hx|now rewrite Hy].
Qed.

(** X19. [getContentBoundingBox] returns [null] when there is no element
    and the box of the element when there is one.  When every element has
    bounds, with finite coordinates, the box it builds by combining them
    one after the other has the [x] and the [y] of one call of
    [combineBoundingBoxes] on all of them.  [adjustViewboxToFitContent]
    takes the box as view box, and keeps the view box and warns when there
    is no element. *)
Theorem content_bounds_corner
  (elements : list string) (bs : list Box) (viewBox : option Box) :
  Forall2 (fun el b => elementBounds el = Ok b) elements bs ->
  Forall finite_box bs ->
  exists r : option Box,
    getContentBoundingBox elementBounds elements = Ok r /\
    (bs = [] -> r = None) /\
    (forall b, bs = [b] -> r = Some b) /\
    option_map x r = option_map x (combineBoundingBoxes (map Obj bs)) /\
    option_map y r = option_map y (combineBoundingBoxes (map Obj bs)) /\
    adjustViewboxToFitContent elementBounds elements viewBox =
      Ok (match bs with
          | [] => (viewBox, true)
          | _ => (r, false)
          end).
Proof.
  intros Hel Hfin.
  assert (E : getContentBoundingBox elementBounds elements =
              Ok (fold_left incorporateBoundingBox bs None)).
  { unfold getContentBoundingBox. apply (loop_of_bounds elements bs Hel). }
  exists (fold_left incorporateBoundingBox bs None).
  split; [exact E|].
  destruct Hfin as [|b bs Hb Hbs].
  - repeat split; try discriminate.
    unfold adjustViewboxToFitContent. rewrite E. reflexivity.
  - destruct Hb as (Hx & Hy & _ & _).
    destruct (incorporate_corner bs b (absorb empty_extent (Obj b)))
      as (r & Er & Ex & Ey).
    { simpl. rewrite Math_min_PosInf. now apply finite_number. }
    { simpl. rewrite Math_min_PosInf. now apply finite_number. }
    cbn [fold_left]. change (incorporateBoundingBox None b) with (Some b).
    rewrite Er. split; [discriminate|]. split.
    { intros b' Eb. injection Eb as -> ->. simpl in Er. congruence. }
    split; [simpl; now rewrite Ex|]. split; [simpl; now rewrite Ey|].
    unfold adjustViewboxToFitContent. rewrite E. cbn [fold_left].
    change (incorporateBoundingBox None b) with (Some b).
    rewrite Er. reflexivity.
Qed.

End WithBounds.
End ContentBoundsFacts.

(** ** Unique identifiers *)

Lemma string_of_uint_inj (d d' : Decimal.uint) :
  NilEmpty.string_of_uint d = NilEmpty.string_of_uint d' -> d = d'.
Proof.
  intros E. apply (f_equal NilEmpty.uint_of_string) in E.
  rewrite !NilEmpty.usu in E. now injection E.
Qed.

Lemma natToString_inj (n m : nat) : natToString n = natToString m -> n = m.
Proof.
  unfold natToString. intros E.
  apply string_of_uint_inj in E. now apply DecimalNat.Unsigned.to_uint_inj.
Qed.

Module UniqueIdFacts.
Import UniqueId UniqueIdCalls.
Section WithData.
Variable Data : Type.
Variable truthy : Data -> bool.
Variable stringify : Data -> string.
Implicit Types (b : Builder) (call : string * Data).

Lemma idOf_inj (n m : nat) : idOf n = idOf m -> n = m.
Proof.
  unfold idOf. simpl. intros E. injection E as E. now apply natToString_inj.
Qed.

Lemma well_formed_fresh : well_formed fresh.
Proof. split; simpl; intros; discriminate. Qed.

(** The three ways a call can go. *)
Lemma getUniqueId_cases call b :
  let r := getUniqueId truthy stringify (fst call) (snd call) b in
  (truthy (snd call) = true /\
   exists id, get (keyOf stringify call) (idMap b) = Some id /\ r = (id, b))
  \/
  (truthy (snd call) = true /\
   get (keyOf stringify call) (idMap b) = None /\
   r = (idOf (uniqueIdCounter b),
        {| idMap := (keyOf stringify call, idOf (uniqueIdCounter b)) :: idMap b;
           uniqueIdCounter := S (uniqueIdCounter b) |}))
  \/
  (truthy (snd call) = false /\
   r = (idOf (uniqueIdCounter b),
        {| idMap := idMap b; uniqueIdCounter := S (uniqueIdCounter b) |})).
Proof.
  unfold getUniqueId, keyOf. destruct (truthy (snd call)).
  - destruct (get _ (idMap b)) as [id|] eqn:E.
    + left. split; [reflexivity|]. now exists id.
    + right; left. repeat split.
  - right; right. repeat split.
Qed.

Lemma get_other (key k id : string) (m : list (string * string)) :
  k <> key -> get key ((k, id) :: m) = get key m.
Proof. intros H. simpl. apply String.eqb_neq in H. now rewrite H. Qed.

Lemma get_same (key id : string) (m : list (string * string)) :
  get key ((key, id) :: m) = Some id.
Proof. simpl. now rewrite String.eqb_refl. Qed.

Lemma getUniqueId_well_formed call b :
  well_formed b ->
  well_formed (snd (getUniqueId truthy stringify (fst call) (snd call) b)).
Proof.
  intros [Hlt Hinj].
  destruct (getUniqueId_cases call b)
    as [(_ & id & _ & ->) | [(_ & Hnone & ->) | (_ & ->)]]; simpl.
  - now split.
  - set (key := keyOf stringify call) in *. split; simpl.
    + intros k id. destruct (String.eqb_spec key k) as [<- | Hk].
      * intros [= <-]. exists (uniqueIdCounter b). split; [lia|reflexivity].
      * intros Hget. destruct (Hlt k id Hget) as (n & Hn & ->).
        exists n. split; [lia|reflexivity].
    + intros k1 k2 id.
      destruct (String.eqb_spec key k1) as [<- | H1],
               (String.eqb_spec key k2) as [<- | H2]; try reflexivity.
      * intros [= <-] Hget. destruct (Hlt _ _ Hget) as (n & Hn & E).
        apply idOf_inj in E. lia.
      * intros Hget [= <-]. destruct (Hlt _ _ Hget) as (n & Hn & E).
        apply idOf_inj in E. lia.
      * apply Hinj.
  - split; simpl.
    + intros k id Hget. destruct (Hlt k id Hget) as (n & Hn & ->).
      exists n. split; [lia|reflexivity].
    + exact Hinj.
Qed.

Lemma getUniqueId_result call b :
  well_formed b ->
  let r := getUniqueId truthy stringify (fst call) (snd call) b in
  (exists n, (n < uniqueIdCounter (snd r))%nat /\ fst r = idOf n) /\
  (truthy (snd call) = true ->
   get (keyOf stringify call) (idMap (snd r)) = Some (fst r)) /\
  (truthy (snd call) = false ->
   fst r = idOf (uniqueIdCounter b) /\ idMap (snd r) = idMap b).
Proof.
  intros [Hlt Hinj].
  destruct (getUniqueId_cases call b)
    as [(Ht & id & Hget & ->) | [(Ht & Hnone & ->) | (Ht & ->)]]; simpl.
  - split; [|split; [intros _; exact Hget|congruence]].
    destruct (Hlt _ _ Hget) as (n & Hn & ->). now exists n.
  - split; [|split; [intros _; now rewrite String.eqb_refl|congruence]].
    exists (uniqueIdCounter b). split; [lia|reflexivity].
  - split; [|split; [congruence|now split]].
    exists (uniqueIdCounter b). split; [lia|reflexivity].
Qed.

(** An identifier returned later was in the map already, under the key of
    its call, or was made from a later counter value. *)
Lemma later_id (rest : list (string * Data)) :
  forall b j call id,
    nth_error rest j = Some call ->
    nth_error (getUniqueIds truthy stringify rest b) j = Some id ->
    (truthy (snd call) = true /\
     get (keyOf stringify call) (idMap b) = Some id)
    \/ (exists n, (uniqueIdCounter b <= n)%nat /\ id = idOf n).
Proof.
  induction rest as [|c rest IH]; intros b j call id Hcall Hid.
  - destruct j; discriminate.
  - destruct j as [|j]; simpl in Hcall, Hid.
    + injection Hcall as <-. injection Hid as <-.
      destruct (getUniqueId_cases c b)
        as [(Ht & id & Hget & ->) | [(Ht & Hnone & ->) | (Ht & ->)]]; simpl.
      * now left.
      * right. exists (uniqueIdCounter b). split; [lia|reflexivity].
      * right. exists (uniqueIdCounter b). split; [lia|reflexivity].
    + specialize (IH _ j call id Hcall Hid).
      destruct (getUniqueId_cases c b)
        as [(Ht & id0 & Hget & E) | [(Ht & Hnone & E) | (Ht & E)]];
        rewrite E in IH; simpl in IH.
      * exact IH.
      * destruct IH as [[Htc Hg] | (n & Hn & ->)].
        -- destruct (String.eqb_spec (keyOf stringify c) (keyOf stringify call)).
           ++ injection Hg as <-. right. exists (uniqueIdCounter b).
              split; [lia|reflexivity].
           ++ now left.
        -- right. exists n. split; [lia|reflexivity].
      * destruct IH as [IH | (n & Hn & ->)]; [now left|].
        right. exists n. split; [lia|reflexivity].
Qed.

(** Once a key is in the map, every later call with truthy data and that
    key returns the identifier the map holds. *)
Lemma registered_id (rest : list (string * Data)) :
  forall b key id j call idj,
    get key (idMap b) = Some id ->
    nth_error rest j = Some call ->
    nth_error (getUniqueIds truthy stringify rest b) j = Some idj ->
    truthy (snd call) = true -> keyOf stringify call = key ->
    idj = id.
Proof.
  induction rest as [|c rest IH]; intros b key id j call idj Hget Hcall Hid Ht Hkey.
  - destruct j; discriminate.
  - destruct j as [|j]; simpl in Hcall, Hid.
    + injection Hcall as <-. injection Hid as <-. subst key.
      destruct (getUniqueId_cases c b)
        as [(_ & id0 & Hget0 & ->) | [(_ & Hnone & _) | (Hf & _)]]; simpl;
        congruence.
    + refine (IH _ key id j call idj _ Hcall Hid Ht Hkey).
      destruct (getUniqueId_cases c b)
        as [(_ & id0 & _ & ->) | [(_ & Hnone & ->) | (_ & ->)]]; simpl;
        try exact Hget.
      destruct (String.eqb_spec (keyOf stringify c) key) as [E | _];
        [congruence|exact Hget].
Qed.


End WithData.
End UniqueIdFacts.

(** ** Instances of the further properties *)

Lemma moveto_per_segment_square :
  (2 <= List.length square)%nat /\
  (forall v, count_char "M" (num_toString v) = 0%nat) /\
  exists segs out,
    Spline.performCatmullRom square (num_lit 1) = Ok segs /\
    SerializerByPrimitive.buildSplineDString num_toString square "quadratic"
      (num_lit 1) = Ok out /\
    count_char "M" out = List.length segs.
Proof.
  assert (Hn : (2 <= List.length square)%nat) by (simpl; lia).
  split; [exact Hn|]. split; [exact num_toString_no_M|].
  exact (ByPrimitiveFacts.buildSplineDString_by_primitive_moveto_per_segment
           num_toString square "quadratic" (num_lit 1) Hn num_toString_no_M).
Defined.

(** The string ["M 0 0 X 1 1"]. *)
Lemma unsupported_command_aborts_X :
  ~ In "X"%string (@StateMachineTerms.supported_names) /\
  (exists gs, executeSVGStateMachine [cmd "M" [0; 0]%Z] = Ok gs) /\
  executeSVGStateMachine [cmd "M" [0; 0]; cmd "X" [1; 1]]%Z =
  Throw (Error "Unsupported SVG command: X").
Proof.
  assert (Hn : ~ In "X"%string (@StateMachineTerms.supported_names)).
  { simpl. intros H.
    repeat (destruct H as [H | H]; [discriminate H|]). exact H. }
  assert (Hb : exists gs, executeSVGStateMachine [cmd "M" [0; 0]%Z] = Ok gs)
    by (eexists; reflexivity).
  split; [exact Hn|]. split; [exact Hb|].
  exact (StateMachineMore.unsupported_command_aborts
           [cmd "M" [0; 0]%Z] [] (cmd "X" [1; 1]%Z) Hn Hb).
Defined.

Lemma commands_before_the_first_move_initial :
  brushTip (@initial jsnum) = None /\
  processCommand (cmd "l" [5; 5]%Z) initial = Throw (Error "Brush tip not set") /\
  processCommand (cmd "h" [5]%Z) initial = Throw TypeError.
Proof.
  split; [reflexivity|].
  destruct (StateMachineMore.commands_before_the_first_move
              initial (map num_lit [5; 5]%Z) eq_refl) as [Hrel _].
  destruct (StateMachineMore.commands_before_the_first_move
              initial (map num_lit [5]%Z) eq_refl) as [_ Hhv].
  split; [apply Hrel|apply Hhv]; simpl; tauto.
Defined.

Lemma run_with_tip_set_instance :
  brushTip moved = Some (pt 1 2) /\
  exists st' added,
    processAll [cmd "l" [1; 1]; cmd "A" [5; 5; 0; 0; 1; 9; 9]; cmd "z" []]%Z moved
      = Ok st' /\
    brushTip st' <> None /\
    geometry st' = geometry moved ++ added /\
    (List.length added <= 3)%nat.
Proof.
  split; [reflexivity|].
  refine (StateMachineMore.run_with_tip_set _ moved (pt 1 2) eq_refl _).
  repeat constructor; simpl; tauto.
Defined.

Lemma strokes_form_a_chain_instance :
  brushTip moved = Some (pt 1 2) /\
  exists added,
    processAll [cmd "L" [3; 4]; cmd "q" [1; 1; 2; 2]; cmd "H" [0]]%Z moved =
      Ok {| geometry := geometry moved ++ added;
            brushTip := Some (StateMachineTerms.chain_end (pt 1 2) added) |} /\
    List.length added = 3%nat /\
    StateMachineTerms.chained (pt 1 2) added.
Proof.
  split; [reflexivity|].
  refine (StateMachineMore.strokes_form_a_chain _ moved (pt 1 2) eq_refl _).
  repeat constructor; simpl; tauto.
Defined.

Lemma arcs_leave_the_tip_instance :
  brushTip moved = Some (pt 1 2) /\
  exists added,
    processAll [cmd "a" [5; 5; 0; 1; 0; 10; 0]; cmd "a" [5; 5; 0; 1; 0; (-10); 0]]%Z
      moved =
      Ok {| geometry := geometry moved ++ added; brushTip := Some (pt 1 2) |} /\
    List.length added = 2%nat /\
    Forall (fun g => p1_of g = None) added.
Proof.
  split; [reflexivity|].
  refine (StateMachineMore.arcs_leave_the_tip _ moved (pt 1 2) eq_refl _).
  repeat constructor; simpl; tauto.
Defined.

Lemma horizontal_and_vertical_targets_instance :
  brushTip moved = Some (num_lit 1, num_lit 2) /\
  processCommand {| name := "h"; args := [num_lit 10] |} moved =
  Ok {| geometry := [Line (Some (pt 1 2))
                       (num_add (num_lit 1) (num_lit 10),
                        num_add (num_lit 2) (num_lit 2))];
        brushTip := Some (num_add (num_lit 1) (num_lit 10),
                          num_add (num_lit 2) (num_lit 2)) |}.
Proof.
  split; [reflexivity|].
  exact (proj1 (StateMachineMore.horizontal_and_vertical_targets
                  moved (num_lit 1) (num_lit 2) (num_lit 10) eq_refl)).
Defined.

Lemma order_irrelevant_scenario :
  Permutation scenario_entries (List.rev scenario_entries) /\
  Forall finite_entry scenario_entries /\
  combineBoundingBoxes (map entry scenario_entries) =
  combineBoundingBoxes (map entry (List.rev scenario_entries)).
Proof.
  assert (P : Permutation scenario_entries (List.rev scenario_entries))
    by apply Permutation_rev.
  split; [exact P|]. split; [exact scenario_entries_finite|].
  exact (BoundingBoxMore.combineBoundingBoxes_order_irrelevant _ _ P
           scenario_entries_finite).
Defined.

Lemma absent_entries_are_skipped_scenario :
  present scenario_entries <> [] /\
  combineBoundingBoxes (map entry scenario_entries) =
  combineBoundingBoxes [Obj (box 0 0 10 5); Obj (box 5 (-5) 10 10)].
Proof.
  assert (H : present scenario_entries <> []) by discriminate.
  split; [exact H|].
  exact (BoundingBoxMore.absent_entries_are_skipped scenario_entries H).
Defined.

Lemma extent_of_present_entries_scenario :
  Forall finite_entry scenario_entries /\
  present scenario_entries <> [] /\
  exists r : Box,
    combineBoundingBoxes (map entry scenario_entries) = Some r /\
    least (x r) [num_lit 0; num_lit 5] /\
    least (y r) [num_lit 0; num_lit (-5)] /\
    (exists right, greatest right [num_lit 10; num_lit 15] /\
                   width r = num_sub right (x r)) /\
    (exists bottom, greatest bottom [num_lit 5; num_lit 5] /\
                    height r = num_sub bottom (y r)).
Proof.
  split; [exact scenario_entries_finite|].
  assert (Hne : present scenario_entries <> []) by discriminate.
  split; [exact Hne|].
  exact (ExtentFacts.extent_of_present_entries scenario_entries
           scenario_entries_finite Hne).
Defined.

Lemma sample_bounds_finite :
  Forall finite_box [box 0 0 10 5; box 5 (-5) 10 10; box (-2) 1 1 1].
Proof. repeat constructor. Defined.

Lemma content_bounds_sample :
  Forall2 (fun el b => sample_bounds el = Ok b)
    ["first"; "second"; "third"]%string
    [box 0 0 10 5; box 5 (-5) 10 10; box (-2) 1 1 1] /\
  Forall finite_box [box 0 0 10 5; box 5 (-5) 10 10; box (-2) 1 1 1] /\
  exists r : option Box,
    ContentBounds.getContentBoundingBox sample_bounds
      ["first"; "second"; "third"]%string = Ok r /\
    option_map x r = Some (num_lit (-2)) /\
    option_map y r = Some (num_lit (-5)) /\
    ContentBounds.adjustViewboxToFitContent sample_bounds
      ["first"; "second"; "third"]%string None = Ok (r, false).
Proof.
  assert (H2 : Forall2 (fun el b => sample_bounds el = Ok b)
                 ["first"; "second"; "third"]%string
                 [box 0 0 10 5; box 5 (-5) 10 10; box (-2) 1 1 1])
    by (repeat constructor).
  split; [exact H2|]. split; [exact sample_bounds_finite|].
  destruct (ContentBoundsFacts.content_bounds_corner
              sample_bounds _ _ None H2 sample_bounds_finite)
    as (r & E & _ & _ & Ex & Ey & Eview).
  exists r. split; [exact E|]. split; [|split; [|exact Eview]].
  - rewrite Ex. computed.
  - rewrite Ey. computed.
Defined.

Example content_bounds_sample_value :
  ContentBounds.getContentBoundingBox sample_bounds
    ["first"; "second"; "third"]%string = Ok (Some (box (-2) (-5) 17 10)) /\
  ContentBounds.getContentBoundingBox sample_bounds ["first"; "fourth"]%string =
    Throw (Error "Invalid path data").
Proof. split; computed. Qed.

